(** * A bump ("arena") allocator: arena.h

    Shallow embedding of [arena.h] and the properties of its alignment
    arithmetic, offset bookkeeping and allocate / reallocate / reset
    lifecycle.

    Conventions of the embedding.
    - [uintptr_t] and [size_t] are 64-bit unsigned words (the platform on
      which [ARENA_DEFAULT_ALIGNMENT], twice the size of a pointer, is 16):
      a word is a [Z] in [0, 2^64) and every [+] and [-] of the source is
      followed by its reduction modulo [2^64].
    - A pointer is the word holding its address; [NULL] is [0].
    - Memory is one flat byte store [Z -> Z] indexed by address.  The
      library routines [memset], [memmove] and [memcpy] act on the span
      [p, p+n) of mathematical addresses: a span that runs past the end of
      the address space does not wrap onto low addresses.
    - Every call of a library routine that writes memory is appended to a
      log, so that what a function wrote (and where) can be stated.
    - A failed [assert] aborts: the functions run in a state monad over
      [option], [None] being the abort. *)

From Stdlib Require Import ZArith Bool List Lia.
Import ListNotations.
Local Open Scope Z_scope.

(** ** Machine words *)

Module Word.

Definition bits : Z := 64.
Definition modulus : Z := 2 ^ bits.

(** The value an unsigned 64-bit expression takes. *)
Definition wrap (z : Z) : Z := z mod modulus.

Definition add (a b : Z) : Z := wrap (a + b).
Definition sub (a b : Z) : Z := wrap (a - b).

(** [is_word z]: [z] is a value of type [uintptr_t] / [size_t]. *)
Definition is_word (z : Z) : Prop := 0 <= z < modulus.

End Word.

Notation "a +w b" := (Word.add a b) (at level 50, left associativity).
Notation "a -w b" := (Word.sub a b) (at level 50, left associativity).

Definition NULL : Z := 0.
Definition ENOMEM : Z := 12.

(** [ARENA_DEFAULT_ALIGNMENT] is defined as twice [sizeof] of a pointer. *)
Definition sizeof_ptr : Z := 8.
Definition ARENA_DEFAULT_ALIGNMENT : Z := 2 * sizeof_ptr.

(** ** Alignment primitives *)

(** [static inline bool pow_2(const uintptr_t v) { return (v&(v-1)) == 0; }] *)
Definition pow_2 (v : Z) : bool := Z.land v (v -w 1) =? 0.

(** Number of set bits of a word, by the binary representation. *)
Fixpoint pos_popcount (p : positive) : nat :=
  match p with
  | xH => 1
  | xO q => pos_popcount q
  | xI q => S (pos_popcount q)
  end.

Definition popcount (v : Z) : nat :=
  match v with
  | Zpos p => pos_popcount p
  | _ => O
  end.

(** [align_forward]: the [assert] aborts ([None]) when it fails.
<<
	assert(pow_2(alignment));
	uintptr_t p = ptr;
	const uintptr_t a = (uintptr_t) alignment;
	const uintptr_t mod = p & (a - 1);
	if (mod != 0) { p += a - mod; }
	return p;
>> *)
Definition align_forward (ptr alignment : Z) : option Z :=
  if pow_2 alignment then
    let p := ptr in
    let a := alignment in
    let md := Z.land p (a -w 1) in
    if negb (md =? 0) then Some (p +w (a -w md)) else Some p
  else None.

(** ** The arena and the machine state *)

(** [typedef struct arena { unsigned char *mem; size_t cap, curr_offset,
    prev_offset; } arena;] *)
Record arena : Type := mkArena {
  mem : Z;          (* The memory in the arena. *)
  cap : Z;          (* The capacity of the memory arena. *)
  curr_offset : Z;  (* The current offset within the arena. *)
  prev_offset : Z   (* The previous offset in the arena. *)
}.

(** The library calls that write memory, as the log keeps them. *)
Inductive call : Type :=
| Memset (p c n : Z)
| Memmove (dst src n : Z)
| Memcpy (dst src n : Z)
| Store (p v : Z).

Record state : Type := mkState {
  ar : arena;          (* the [arena] object the functions are handed *)
  heap : Z -> Z;       (* the byte at each address *)
  errno : Z;
  calls : list call    (* the writes made so far, oldest first *)
}.

(** *** Byte store *)

Definition in_span (p n x : Z) : bool := (p <=? x) && (x <? p + n).

Definition fill (h : Z -> Z) (p c n : Z) : Z -> Z :=
  fun x => if in_span p n x then c else h x.

(** Every byte of the destination is read from the store as it was before
    the call, which is what makes [memmove] safe on overlapping spans. *)
Definition move (h : Z -> Z) (dst src n : Z) : Z -> Z :=
  fun x => if in_span dst n x then h (src + (x - dst)) else h x.

Definition poke (h : Z -> Z) (p v : Z) : Z -> Z :=
  fun x => if x =? p then v else h x.

(** *** State monad with abort *)

Definition M (A : Type) : Type := state -> option (A * state).

Definition ret {A : Type} (x : A) : M A := fun s => Some (x, s).

Definition bind {A B : Type} (m : M A) (k : A -> M B) : M B :=
  fun s => match m s with
           | Some (x, s') => k x s'
           | None => None
           end.

Declare Scope arena_scope.
Delimit Scope arena_scope with arena.
Notation "x <- m ;; k" := (bind m (fun x => k))
  (at level 61, m at next level, right associativity) : arena_scope.
Notation "m ;; k" := (bind m (fun _ => k))
  (at level 61, right associativity) : arena_scope.
Local Open Scope arena_scope.

Definition lift {A : Type} (o : option A) : M A :=
  fun s => match o with Some x => Some (x, s) | None => None end.

Definition assert (b : bool) : M unit :=
  fun s => if b then Some (tt, s) else None.

Definition get_arena : M arena := fun s => Some (ar s, s).

Definition put_arena (a : arena) : M unit :=
  fun s => Some (tt, mkState a (heap s) (errno s) (calls s)).

Definition set_mem (v : Z) : M unit :=
  a <- get_arena ;; put_arena (mkArena v (cap a) (curr_offset a) (prev_offset a)).
Definition set_cap (v : Z) : M unit :=
  a <- get_arena ;; put_arena (mkArena (mem a) v (curr_offset a) (prev_offset a)).
Definition set_curr_offset (v : Z) : M unit :=
  a <- get_arena ;; put_arena (mkArena (mem a) (cap a) v (prev_offset a)).
Definition set_prev_offset (v : Z) : M unit :=
  a <- get_arena ;; put_arena (mkArena (mem a) (cap a) (curr_offset a) v).

Definition set_errno (e : Z) : M unit :=
  fun s => Some (tt, mkState (ar s) (heap s) e (calls s)).

Definition memset (p c n : Z) : M unit :=
  fun s => Some (tt, mkState (ar s) (fill (heap s) p c n) (errno s)
                             (calls s ++ [Memset p c n])).

Definition memmove (dst src n : Z) : M unit :=
  fun s => Some (tt, mkState (ar s) (move (heap s) dst src n) (errno s)
                             (calls s ++ [Memmove dst src n])).

(** [memcpy] is given the meaning of [memmove]; the two differ only on
    overlapping spans, where [memcpy] has no defined meaning. *)
Definition memcpy (dst src n : Z) : M unit :=
  fun s => Some (tt, mkState (ar s) (move (heap s) dst src n) (errno s)
                             (calls s ++ [Memcpy dst src n])).

(** [p[0] = v] through a [char] pointer. *)
Definition store (p v : Z) : M unit :=
  fun s => Some (tt, mkState (ar s) (poke (heap s) p v) (errno s)
                             (calls s ++ [Store p v])).

(** [strlen]: the scan for the terminator, at most [fuel] bytes long; [None]
    when no terminator is met within them. *)
Fixpoint strlen_scan (fuel : nat) (h : Z -> Z) (p n : Z) : option Z :=
  match fuel with
  | O => None
  | S f => if h (p + n) =? 0 then Some n else strlen_scan f h p (n + 1)
  end.

Definition strlen (fuel : nat) (src : Z) : M Z :=
  fun s => match strlen_scan fuel (heap s) src 0 with
           | Some n => Some (n, s)
           | None => None
           end.

(** [strnlen]: the same scan, stopped after [maxlen] bytes. *)
Fixpoint strnlen_scan (fuel : nat) (h : Z -> Z) (p maxlen n : Z) : option Z :=
  match fuel with
  | O => None
  | S f => if (maxlen <=? n) || (h (p + n) =? 0) then Some n
           else strnlen_scan f h p maxlen (n + 1)
  end.

Definition strnlen (fuel : nat) (src maxlen : Z) : M Z :=
  fun s => match strnlen_scan fuel (heap s) src maxlen 0 with
           | Some n => Some (n, s)
           | None => None
           end.

(** ** The allocator *)

(** [arena_aligned_alloc]
<<
	const uintptr_t curr = (uintptr_t)a->mem + (uintptr_t)a->curr_offset;
	uintptr_t offset = align_forward(curr, alignment);
	offset -= (uintptr_t)a->mem;
	if (offset+size <= a->cap) {
		void *ptr = &a->mem[offset];
		a->prev_offset = offset;
		a->curr_offset = offset + size;
		memset(ptr, 0, size);
		return ptr;
	}
	errno = ENOMEM;
	return NULL;
>> *)
Definition arena_aligned_alloc (alignment size : Z) : M Z :=
  a <- get_arena ;;
  let curr := mem a +w curr_offset a in
  offset <- lift (align_forward curr alignment) ;;
  let offset := offset -w mem a in
  if offset +w size <=? cap a then
    let ptr := mem a +w offset in
    set_prev_offset offset ;;
    set_curr_offset (offset +w size) ;;
    memset ptr 0 size ;;
    ret ptr
  else
    set_errno ENOMEM ;;
    ret NULL.

(** [arena_aligned_realloc]
<<
	unsigned char *old = (unsigned char * )old_mem;
	assert(pow_2(alignment));
	if (old == NULL || old_size == 0) {
		return arena_aligned_alloc(a, alignment, new_size);
	} else if (a->mem <= old && old < a->mem+a->cap) {
		if (a->mem+a->prev_offset == old) {
			a->curr_offset = a->prev_offset+new_size;
			if (new_size > old_size) {
				memset(&a->mem[a->curr_offset], 0, new_size-old_size);
			}
			return old;
		} else {
			void *new_mem = arena_aligned_alloc(a, alignment, new_size);
			size_t copy_size = old_size < new_size ? old_size : new_size;
			memmove(new_mem, old, copy_size);
			return new_mem;
		}
	} else {
		errno = ENOMEM;
		return NULL;
	}
>> *)
Definition arena_aligned_realloc (alignment old_mem old_size new_size : Z) : M Z :=
  let old := old_mem in
  assert (pow_2 alignment) ;;
  a <- get_arena ;;
  if (old =? NULL) || (old_size =? 0) then
    arena_aligned_alloc alignment new_size
  else if (mem a <=? old) && (old <? mem a +w cap a) then
    if mem a +w prev_offset a =? old then
      set_curr_offset (prev_offset a +w new_size) ;;
      (if old_size <? new_size then
         a' <- get_arena ;;
         memset (mem a' +w curr_offset a') 0 (new_size -w old_size)
       else ret tt) ;;
      ret old
    else
      new_mem <- arena_aligned_alloc alignment new_size ;;
      let copy_size := if old_size <? new_size then old_size else new_size in
      memmove new_mem old copy_size ;;
      ret new_mem
  else
    set_errno ENOMEM ;;
    ret NULL.

(** [arena_init] *)
Definition arena_init (m c : Z) : M unit :=
  set_mem m ;;
  set_cap c ;;
  set_curr_offset 0 ;;
  set_prev_offset 0.

(** [arena_deinit] *)
Definition arena_deinit : M unit :=
  a <- get_arena ;;
  memset (mem a) 0 (curr_offset a) ;;
  set_mem NULL ;;
  set_curr_offset 0 ;;
  set_prev_offset 0 ;;
  set_cap 0.

Definition arena_alloc (size : Z) : M Z :=
  arena_aligned_alloc ARENA_DEFAULT_ALIGNMENT size.

Definition arena_realloc (old_memory old_size new_size : Z) : M Z :=
  arena_aligned_realloc ARENA_DEFAULT_ALIGNMENT old_memory old_size new_size.

(** [arena_memdup] *)
Definition arena_memdup (src size : Z) : M Z :=
  dup <- arena_alloc size ;;
  (if negb (dup =? NULL) then memcpy dup src size else ret tt) ;;
  ret dup.

(** [arena_strdup]
<<
	size_t len = strlen(src)+1;
	char *dup = arena_alloc(a, len);
	if (dup != NULL) {
		memcpy(dup, src, len);
		dup[len] = 0;
	}
	return dup;
>> *)
Definition arena_strdup (fuel : nat) (src : Z) : M Z :=
  n <- strlen fuel src ;;
  let len := n +w 1 in
  dup <- arena_alloc len ;;
  (if negb (dup =? NULL) then
     memcpy dup src len ;;
     store (dup +w len) 0
   else ret tt) ;;
  ret dup.

(** [arena_strndup]
<<
	size_t len = strnlen(src, size);
	char *dup = arena_alloc(a, len+1);
	if (dup != NULL) {
		memcpy(dup, src, len);
		dup[len] = 0;
	}
	return dup;
>> *)
Definition arena_strndup (fuel : nat) (src size : Z) : M Z :=
  len <- strnlen fuel src size ;;
  dup <- arena_alloc (len +w 1) ;;
  (if negb (dup =? NULL) then
     memcpy dup src len ;;
     store (dup +w len) 0
   else ret tt) ;;
  ret dup.

(** [arena_reset] *)
Definition arena_reset : M unit :=
  set_curr_offset 0 ;;
  set_prev_offset 0.

(** [arena_zero] *)
Definition arena_zero : M unit :=
  a <- get_arena ;;
  memset (mem a) 0 (curr_offset a) ;;
  arena_reset.

(** ** Sequences of operations *)

Inductive op : Type :=
| Alloc (alignment size : Z)
| Realloc (alignment old_mem old_size new_size : Z)
| Reset
| Zero
| Deinit.

Definition exec (o : op) : M unit :=
  match o with
  | Alloc al sz => arena_aligned_alloc al sz ;; ret tt
  | Realloc al old osz nsz => arena_aligned_realloc al old osz nsz ;; ret tt
  | Reset => arena_reset
  | Zero => arena_zero
  | Deinit => arena_deinit
  end.

Fixpoint run (ops : list op) : M unit :=
  match ops with
  | [] => ret tt
  | o :: rest => exec o ;; run rest
  end.

(** The state invariant on the offsets. *)
Definition offsets_ok (a : arena) : Prop :=
  0 <= prev_offset a /\ prev_offset a <= curr_offset a /\ curr_offset a <= cap a.

(** An arena as the program can hold it: its backing block [mem, mem+cap)
    lies inside the address space, above [NULL], and its offsets satisfy
    the invariant. *)
Record arena_wf (a : arena) : Prop := mkWf {
  wf_mem : 0 < mem a;
  wf_block : mem a + cap a < Word.modulus;
  wf_cap : 0 <= cap a;
  wf_offsets : offsets_ok a
}.

(** A power-of-two alignment: [2^k] for a bit position [k] of the word. *)
Definition is_pow2 (k : Z) : Prop := exists i, 0 <= i < Word.bits /\ k = 2 ^ i.

(** A state whose store holds [junk] everywhere, with an unbound arena: the
    state a program is in before [arena_init]. *)
Definition blank (junk : Z) : state :=
  mkState (mkArena 0 0 0 0) (fun _ => junk) 0 [].

(** The offset a call of [arena_aligned_alloc] computes from the cursor. *)
Definition aligned_offset (a : arena) (alignment : Z) : Z :=
  match align_forward (mem a +w curr_offset a) alignment with
  | Some p => p -w mem a
  | None => 0
  end.

(** An allocation request that fits: the aligned offset plus the size,
    as integers, is within the capacity. *)
Definition fits (a : arena) (alignment size : Z) : Prop :=
  aligned_offset a alignment + size <= cap a.

(** One further allocation: a request that fits, granted by
    [arena_aligned_alloc]. *)
Inductive alloc_step : state -> state -> Prop :=
| AllocStep s al size r s' :
    is_pow2 al -> Word.is_word size -> fits (ar s) al size ->
    arena_aligned_alloc al size s = Some (r, s') ->
    alloc_step s s'.

(** What happens between two calls on an allocation: further allocations,
    at least one of them, and anything the caller does to memory in between
    that leaves the arena object alone. *)
Inductive intervened : state -> state -> Prop :=
| iv_alloc s s' : alloc_step s s' -> intervened s s'
| iv_caller_first s s' s'' :
    ar s' = ar s -> intervened s' s'' -> intervened s s''
| iv_then_alloc s s' s'' :
    intervened s s' -> alloc_step s' s'' -> intervened s s''
| iv_then_caller s s' s'' :
    intervened s s' -> ar s'' = ar s' -> intervened s s''.

(** An operation within bounds: the sum of an allocation request does not
    wrap, and an in-place resize stays within the capacity. *)
Definition op_in_bounds (a : arena) (o : op) : Prop :=
  match o with
  | Alloc al size =>
      Word.is_word size /\ aligned_offset a al + size < Word.modulus
  | Realloc al old _ new_size =>
      Word.is_word new_size /\
      aligned_offset a al + new_size < Word.modulus /\
      (mem a +w prev_offset a = old -> prev_offset a + new_size <= cap a)
  | Reset | Zero | Deinit => True
  end.

(** Every operation of the run is within bounds in the state it starts
    from. *)
Fixpoint run_in_bounds (ops : list op) (s : state) : Prop :=
  match ops with
  | [] => True
  | o :: rest =>
      op_in_bounds (ar s) o /\
      forall s', exec o s = Some (tt, s') -> run_in_bounds rest s'
  end.

(** The offsets invariant, with a capacity that is a word. *)
Definition bounded (a : arena) : Prop :=
  offsets_ok a /\ cap a < Word.modulus.

(** The states a program reaches from [arena_init] by the arena's
    operations. *)
Definition reachable (m c : Z) (s0 s : state) : Prop :=
  exists ops, (arena_init m c ;; run ops) s0 = Some (tt, s).

(** ** Strings in memory *)

(** A C string of length [n] stands at [p]: [n] non-zero bytes and their
    terminator. *)
Definition c_string (h : Z -> Z) (p n : Z) : Prop :=
  (forall i, 0 <= i < n -> h (p + i) <> 0) /\ h (p + n) = 0.

(** [len] is what [strnlen] finds at [p] under the bound [maxlen]: [len]
    non-zero bytes, ended by the bound or by a terminator. *)
Definition c_prefix (h : Z -> Z) (p maxlen len : Z) : Prop :=
  (forall i, 0 <= i < len -> h (p + i) <> 0) /\
  len <= maxlen /\ (len = maxlen \/ h (p + len) = 0).

(** ** Formatted allocation *)

Definition INT_MAX : Z := 2147483647.

(** Bytes stored one after the other from [p] on. *)
Fixpoint store_bytes (p : Z) (l : list Z) : M unit :=
  match l with
  | [] => ret tt
  | b :: rest => store p b ;; store_bytes (p + 1) rest
  end.

(** What a call of [vsnprintf] makes of its format and arguments: the
    text, or a failure together with the value the call leaves in [errno]. *)
Inductive rendering : Type :=
| Rendered (bytes : list Z)
| Failed (e : Z).

(** [errno] of a text whose length is no [int]. *)
Definition EOVERFLOW : Z := 75.

(** [vsnprintf(dst, size, fmt, args)].  What the format and its arguments
    render to is not computed here: it is the parameter [fmt], a function
    of the memory the call finds (a string argument is read from memory).
    The call returns the length of the whole text and, when [size] is not
    0, writes at most [size - 1] bytes of the text and a terminator.  On
    failure, also when the length is no [int], it returns a negative value
    and sets [errno]. *)
Definition vsnprintf (dst size : Z) (fmt : (Z -> Z) -> rendering) : M Z :=
  fun s =>
    match fmt (heap s) with
    | Failed e => (set_errno e ;; ret (-1)) s
    | Rendered bytes =>
        let len := Z.of_nat (length bytes) in
        if INT_MAX <? len then (set_errno EOVERFLOW ;; ret (-1)) s
        else if size =? 0 then ret len s
        else
          let kept := firstn (Z.to_nat (size - 1)) bytes in
          (store_bytes dst (kept ++ [0]) ;;
           ret len) s
    end.

(** [int] addition: overflow has no defined meaning and aborts. *)
Definition int_add (a b : Z) : M Z :=
  if (a + b <=? INT_MAX) && (- INT_MAX - 1 <=? a + b) then ret (a + b)
  else fun _ => None.

(** [arena_asprintf]
<<
	int len = vsnprintf(NULL, 0, fmt, args_copy);
	if (len < 0) { return NULL; }
	char *out = arena_alloc(a, len+1);
	if (out == NULL) { return NULL; }
	vsnprintf(out, len+1, fmt, args);
	return out;
>> *)
Definition arena_asprintf (fmt : (Z -> Z) -> rendering) : M Z :=
  len <- vsnprintf NULL 0 fmt ;;
  if len <? 0 then ret NULL
  else
    len1 <- int_add len 1 ;;
    out <- arena_alloc (Word.wrap len1) ;;
    if out =? NULL then ret NULL
    else
      len1' <- int_add len 1 ;;
      vsnprintf out (Word.wrap len1') fmt ;;
      ret out.

(** * The string builder: sb.h

    The builder keeps its buffer on the general heap.  The model adds to
    the flat byte store the table of the live heap blocks (the size of the
    block that starts at each address).  What the allocator answers is not
    computed: every function that may call [malloc], [realloc] or [strndup]
    takes the address the allocator returns as a parameter ([answer],
    [NULL] when the allocation fails), and the theorems hold for every
    answer.  The formatted text is a parameter too ([None] when the
    formatting fails). *)

Module SB.

(** [#define SB_DEFAULT_CAP 32] *)
Definition SB_DEFAULT_CAP : Z := 32.

(** [typedef struct string_builder { size_t cap; size_t len; char *buf; }
    string_builder;] *)
Record string_builder : Type := mkSb {
  cap : Z;  (* The string builder's capacity. *)
  len : Z;  (* The string builder' current length. *)
  buf : Z   (* The string builder's buffer. *)
}.

Record state : Type := mkSt {
  sb : string_builder;       (* the builder the functions are handed *)
  heap : Z -> Z;             (* the byte at each address *)
  blocks : Z -> option Z     (* the size of the live block at each base *)
}.

Definition M (A : Type) : Type := state -> option (A * state).

Definition ret {A : Type} (x : A) : M A := fun s => Some (x, s).

Definition bind {A B : Type} (m : M A) (k : A -> M B) : M B :=
  fun s => match m s with
           | Some (x, s') => k x s'
           | None => None
           end.

Declare Scope sb_scope.
Delimit Scope sb_scope with sb.
Notation "x <- m ;; k" := (bind m (fun x => k))
  (at level 61, m at next level, right associativity) : sb_scope.
Notation "m ;; k" := (bind m (fun _ => k))
  (at level 61, right associativity) : sb_scope.
Local Open Scope sb_scope.

Definition abort {A : Type} : M A := fun _ => None.

Definition get_sb : M string_builder := fun s => Some (sb s, s).

Definition put_sb (b : string_builder) : M unit :=
  fun s => Some (tt, mkSt b (heap s) (blocks s)).

Definition set_cap (v : Z) : M unit :=
  b <- get_sb ;; put_sb (mkSb v (len b) (buf b)).
Definition set_len (v : Z) : M unit :=
  b <- get_sb ;; put_sb (mkSb (cap b) v (buf b)).
Definition set_buf (v : Z) : M unit :=
  b <- get_sb ;; put_sb (mkSb (cap b) (len b) v).

(** [memset(p, c, n)]: writing through the null pointer has no defined
    meaning and aborts. *)
Definition memset (p c n : Z) : M unit :=
  fun s => if (p =? NULL) && (0 <? n) then None
           else Some (tt, mkSt (sb s) (fill (heap s) p c n) (blocks s)).

Definition store (p v : Z) : M unit :=
  fun s => Some (tt, mkSt (sb s) (poke (heap s) p v) (blocks s)).

Fixpoint store_bytes (p : Z) (l : list Z) : M unit :=
  match l with
  | [] => ret tt
  | b :: rest => store p b ;; store_bytes (p + 1) rest
  end.

(** *** The allocator *)

Definition set_block (t : Z -> option Z) (p : Z) (v : option Z) : Z -> option Z :=
  fun x => if x =? p then v else t x.

(** [malloc(size)]: the block is not initialised. *)
Definition malloc (size answer : Z) : M Z :=
  fun s => if answer =? NULL then Some (NULL, s)
           else Some (answer, mkSt (sb s) (heap s)
                                   (set_block (blocks s) answer (Some size))).

(** [realloc(p, size)]: a [p] that is neither [NULL] nor the base of a live
    block has no defined meaning and aborts.  With a live block and
    [size = 0] the C library frees the block and answers [NULL].
    Otherwise: on failure the old block stays; on success the new block
    holds the old bytes up to the smaller of the two sizes and the old
    block is gone. *)
Definition realloc (p size answer : Z) : M Z :=
  fun s =>
    match (if p =? NULL then Some 0 else blocks s p) with
    | None => None
    | Some old =>
        if negb (p =? NULL) && (size =? 0) then
          Some (NULL, mkSt (sb s) (heap s) (set_block (blocks s) p None))
        else if answer =? NULL then Some (NULL, s)
        else
          Some (answer,
                mkSt (sb s)
                     (move (heap s) answer p (Z.min old size))
                     (set_block (set_block (blocks s) p None) answer (Some size)))
    end.

(** [free(p)]: a [p] that is neither [NULL] nor the base of a live block
    (a block freed before, for one) has no defined meaning and aborts. *)
Definition free (p : Z) : M unit :=
  fun s => if p =? NULL then Some (tt, s)
           else match blocks s p with
                | None => None
                | Some _ =>
                    Some (tt, mkSt (sb s) (heap s) (set_block (blocks s) p None))
                end.

(** *** Formatting and [int] arithmetic *)

Definition vsnprintf (dst size : Z) (text : option (list Z)) : M Z :=
  match text with
  | None => ret (-1)
  | Some bytes =>
      let n := Z.of_nat (length bytes) in
      if INT_MAX <? n then ret (-1)
      else if size =? 0 then ret n
      else
        let kept := firstn (Z.to_nat (size - 1)) bytes in
        store_bytes dst (kept ++ [0]) ;;
        ret n
  end.

Definition in_int (z : Z) : bool := (- INT_MAX - 1 <=? z) && (z <=? INT_MAX).

Definition int_add (a b : Z) : M Z :=
  if in_int (a + b) then ret (a + b) else abort.

Definition int_mul (a b : Z) : M Z :=
  if in_int (a * b) then ret (a * b) else abort.

(** The bytes of the C string at [p], the terminator left out; [None] when
    no terminator is met within [fuel] bytes.  This is what the format
    [%s] renders. *)
Fixpoint read_string (fuel : nat) (h : Z -> Z) (p : Z) : option (list Z) :=
  match fuel with
  | O => None
  | S f => if h p =? 0 then Some []
           else match read_string f h (p + 1) with
                | Some l => Some (h p :: l)
                | None => None
                end
  end.

(** *** The builder *)

(** [sb_init_cap]
<<
	sb->buf = malloc(cap);
	memset(sb->buf, 0, cap);
	sb->cap = cap;
	sb->len = 0;
>> *)
Definition sb_init_cap (c answer : Z) : M unit :=
  p <- malloc c answer ;;
  set_buf p ;;
  b <- get_sb ;;
  memset (buf b) 0 c ;;
  set_cap c ;;
  set_len 0.

Definition sb_init (answer : Z) : M unit := sb_init_cap SB_DEFAULT_CAP answer.

(** [sb_deinit] *)
Definition sb_deinit : M unit :=
  b <- get_sb ;;
  free (buf b) ;;
  set_cap 0 ;;
  set_len 0.

(** [sb_grow]
<<
	size_t cap = sb->cap + size;
	if (size < sb->cap) { return false; }
	char *buf;
	buf = realloc(sb->buf, cap);
	if (buf == NULL) { return false; }
	memset(buf + sb->len, 0, cap - sb->len);
	sb->buf = buf;
	sb->cap = cap;
	return true;
>> *)
Definition sb_grow (size answer : Z) : M bool :=
  b <- get_sb ;;
  let c := cap b +w size in
  if size <? cap b then ret false
  else
    p <- realloc (buf b) c answer ;;
    if p =? NULL then ret false
    else
      memset (p +w len b) 0 (c -w len b) ;;
      set_buf p ;;
      set_cap c ;;
      ret true.

(** [sb_vwritef]
<<
	const int len = vsnprintf(NULL, 0, format, args_copy);
	if (len < 0) { return 0; }
	if (sb->len + len + 1 >= sb->cap) {
		if (!sb_grow(sb, len*2)) { return 0; }
	}
	char *dst = sb->buf;
	const int written = vsnprintf(dst + sb->len, len+1, format, args);
	if (written < 0) { return 0; }
	sb->len += written;
	return written;
>> *)
Definition sb_vwritef (text : option (list Z)) (answer : Z) : M Z :=
  n <- vsnprintf NULL 0 text ;;
  if n <? 0 then ret 0
  else
    b <- get_sb ;;
    grown <- (if cap b <=? len b +w Word.wrap n +w 1 then
                n2 <- int_mul n 2 ;;
                sb_grow (Word.wrap n2) answer
              else ret true) ;;
    if negb grown then ret 0
    else
      b' <- get_sb ;;
      let dst := buf b' in
      n1 <- int_add n 1 ;;
      written <- vsnprintf (dst +w len b') (Word.wrap n1) text ;;
      if written <? 0 then ret 0
      else
        set_len (len b' +w Word.wrap written) ;;
        ret (Word.wrap written).

(** [sb_writef] hands its arguments to [sb_vwritef]. *)
Definition sb_writef (text : option (list Z)) (answer : Z) : M Z :=
  sb_vwritef text answer.

(** [sb_write]: [sb_writef(sb, "%s", s)]. *)
Definition sb_write (fuel : nat) (s answer : Z) : M Z :=
  fun st =>
    match read_string fuel (heap st) s with
    | Some bytes => sb_writef (Some bytes) answer st
    | None => None
    end.

(** [sb_clear] *)
Definition sb_clear : M unit :=
  b <- get_sb ;;
  memset (buf b) 0 (cap b) ;;
  set_len 0.

(** [sb_init_from]: [len] is the local of the source, the builder's own
    [len] field is not assigned before [sb_write] reads it.
<<
	size_t len = strlen(s);
	sb->cap = len * 2;
	sb->buf = malloc(sb->cap);
	memset(sb->buf, 0, sb->cap);
	sb_write(sb, s);
>> *)
Definition sb_init_from (fuel : nat) (s answer answer' : Z) : M unit :=
  fun st =>
    match strlen_scan fuel (heap st) s 0 with
    | None => None
    | Some n =>
        (set_cap (Word.wrap (n * 2)) ;;
         b <- get_sb ;;
         p <- malloc (cap b) answer ;;
         set_buf p ;;
         b' <- get_sb ;;
         memset (buf b') 0 (cap b') ;;
         sb_write fuel s answer' ;;
         ret tt) st
    end.

(** [strndup(p, n)] of the C library: a fresh block holding the first
    [strnlen(p, n)] bytes and a terminator. *)
Definition strndup (fuel : nat) (p n answer : Z) : M Z :=
  fun st =>
    match strnlen_scan fuel (heap st) p n 0 with
    | None => None
    | Some l =>
        (q <- malloc (l +w 1) answer ;;
         if q =? NULL then ret NULL
         else
           fun st' =>
             Some (q, mkSt (sb st')
                           (poke (move (heap st') q p l) (q + l) 0)
                           (blocks st'))) st
    end.

(** [sb_to_string] *)
Definition sb_to_string (fuel : nat) (answer : Z) : M Z :=
  b <- get_sb ;;
  strndup fuel (buf b) (len b) answer.

(** The builder holds the text [content]: its buffer is a live block of
    [cap] bytes, the text lies at its start followed by a terminator, and
    both fit in the block. *)
Record holds (s : state) (content : list Z) : Prop := mkHolds {
  h_len : len (sb s) = Z.of_nat (length content);
  h_room : len (sb s) + 1 <= cap (sb s);
  h_cap : cap (sb s) < Word.modulus;
  h_buf : 0 < buf (sb s);
  h_end : buf (sb s) + cap (sb s) < Word.modulus;
  h_block : blocks s (buf (sb s)) = Some (cap (sb s));
  h_bytes : forall i, 0 <= i < Z.of_nat (length content) ->
                      heap s (buf (sb s) + i) = nth (Z.to_nat i) content 0;
  h_term : heap s (buf (sb s) + len (sb s)) = 0
}.

(** What [sb_grow] relies on: a length within the capacity and a buffer
    that is a live block of [cap] bytes. *)
Definition holds_block (s : state) : Prop :=
  0 <= len (sb s) /\ len (sb s) <= cap (sb s) /\ 0 < buf (sb s) /\
  blocks s (buf (sb s)) = Some (cap (sb s)).

(** The buffer pointer is one [realloc] accepts: [NULL], or the base of a
    live block. *)
Definition buffer_ok (s : state) : Prop :=
  buf (sb s) = NULL \/ exists c, blocks s (buf (sb s)) = Some c.

(** The [n] bytes of memory from [p] on. *)
Definition bytes_at (h : Z -> Z) (p : Z) (n : nat) : list Z :=
  map (fun i => h (p + Z.of_nat i)) (seq 0 n).

End SB.


(** * Properties *)

(** Case analysis on the comparisons of the byte-store operations. *)
Ltac span_cases :=
  unfold fill, move, poke, in_span;
  repeat match goal with
         | |- context [?a <=? ?b] => destruct (Z.leb_spec a b)
         | |- context [?a <? ?b] => destruct (Z.ltb_spec a b)
         | |- context [?a =? ?b] => destruct (Z.eqb_spec a b)
         end;
  cbn [andb orb negb]; try reflexivity; try lia.

(** ** Words *)

Lemma modulus_eq : Word.modulus = 18446744073709551616.
Proof. reflexivity. Qed.

Lemma wrap_is_word z : Word.is_word (Word.wrap z).
Proof. unfold Word.is_word, Word.wrap. apply Z.mod_pos_bound. reflexivity. Qed.

Lemma sub_small a b : 0 <= b <= a -> a < Word.modulus -> a -w b = a - b.
Proof. intros H1 H2. apply Z.mod_small. lia. Qed.

Lemma add_small a b : 0 <= a -> 0 <= b -> a + b < Word.modulus -> a +w b = a + b.
Proof. intros H1 H2 H3. apply Z.mod_small. lia. Qed.

(** ** Bit arithmetic of [pow_2] *)

Lemma land_even_odd a b : Z.land (2 * a) (2 * b + 1) = 2 * Z.land a b.
Proof.
  apply Z.bits_inj'. intros n Hn.
  rewrite Z.land_spec.
  destruct (Z.eq_dec n 0) as [-> | Hne].
  - rewrite Z.testbit_even_0, Z.testbit_even_0. reflexivity.
  - replace n with (Z.succ (n - 1)) by lia.
    rewrite !Z.testbit_even_succ, Z.testbit_odd_succ by lia.
    now rewrite Z.land_spec.
Qed.

Lemma land_odd_even a : Z.land (2 * a + 1) (2 * a) = 2 * a.
Proof.
  apply Z.bits_inj'. intros n Hn.
  rewrite Z.land_spec.
  destruct (Z.eq_dec n 0) as [-> | Hne].
  - rewrite Z.testbit_even_0, Z.testbit_odd_0. reflexivity.
  - replace n with (Z.succ (n - 1)) by lia.
    rewrite !Z.testbit_even_succ, Z.testbit_odd_succ by lia.
    apply andb_diag.
Qed.

Lemma pos_popcount_pos p : (1 <= pos_popcount p)%nat.
Proof. induction p; simpl; lia. Qed.

Lemma land_pred_popcount p :
  Z.land (Zpos p) (Zpos p - 1) = 0 <-> pos_popcount p = 1%nat.
Proof.
  induction p as [q IH | q IH | ].
  - replace (Z.pos q~1 - 1) with (2 * Z.pos q) by lia.
    replace (Z.pos q~1) with (2 * Z.pos q + 1) by lia.
    rewrite land_odd_even. cbn [pos_popcount].
    pose proof (pos_popcount_pos q). lia.
  - replace (Z.pos q~0 - 1) with (2 * (Z.pos q - 1) + 1) by lia.
    replace (Z.pos q~0) with (2 * Z.pos q) at 1 by lia.
    rewrite land_even_odd. cbn [pos_popcount]. rewrite <- IH. lia.
  - cbn. tauto.
Qed.

Lemma pow_2_nonzero v :
  0 < v < Word.modulus -> (pow_2 v = true <-> popcount v = 1%nat).
Proof.
  intros Hv. unfold pow_2. rewrite sub_small by lia.
  rewrite Z.eqb_eq.
  destruct v as [ | p | p]; try lia.
  apply land_pred_popcount.
Qed.

Lemma popcount_pow2 i : 0 <= i -> popcount (2 ^ i) = 1%nat.
Proof.
  intros Hi. pattern i. apply natlike_ind; [reflexivity | | exact Hi].
  intros x Hx IH. rewrite Z.pow_succ_r by exact Hx.
  assert (0 < 2 ^ x) by (apply Z.pow_pos_nonneg; lia).
  destruct (2 ^ x) as [ | p | p]; try lia. exact IH.
Qed.

Lemma is_pow2_range k : is_pow2 k -> 0 < k < Word.modulus.
Proof.
  intros (i & Hi & ->). unfold Word.modulus, Word.bits in *. split.
  - apply Z.pow_pos_nonneg; lia.
  - apply Z.pow_lt_mono_r; lia.
Qed.

Lemma pow_2_is_pow2 k : is_pow2 k -> pow_2 k = true.
Proof.
  intros Hk. pose proof (is_pow2_range k Hk) as Hr.
  apply pow_2_nonzero; [exact Hr|].
  destruct Hk as (i & Hi & ->). apply popcount_pow2. lia.
Qed.

Lemma land_mask p k : is_pow2 k -> Z.land p (k -w 1) = p mod k.
Proof.
  intros Hk. pose proof (is_pow2_range k Hk) as Hr.
  rewrite sub_small by lia.
  destruct Hk as (i & Hi & ->).
  replace (2 ^ i - 1) with (Z.ones i) by (rewrite Z.ones_equiv; lia).
  apply Z.land_ones. lia.
Qed.

(** ** [align_forward] *)

Lemma modulus_multiple k : is_pow2 k -> exists c, 0 < c /\ Word.modulus = k * c.
Proof.
  intros (i & Hi & ->). exists (2 ^ (Word.bits - i)). split.
  - apply Z.pow_pos_nonneg; lia.
  - unfold Word.modulus. rewrite <- Z.pow_add_r by lia. f_equal. lia.
Qed.

(** The value [align_forward] computes, in arithmetic instead of masks. *)
Lemma align_forward_eq a k :
  is_pow2 k ->
  align_forward a k =
  Some (if a mod k =? 0 then a else (a + (k - a mod k)) mod Word.modulus).
Proof.
  intros Hk. unfold align_forward.
  rewrite (pow_2_is_pow2 k Hk). cbv zeta.
  rewrite (land_mask a k Hk).
  pose proof (is_pow2_range k Hk) as Hr.
  pose proof (Z.mod_pos_bound a k ltac:(lia)) as Hm.
  destruct (a mod k =? 0) eqn:E; cbn [negb]; [reflexivity|].
  apply Z.eqb_neq in E.
  rewrite (sub_small k (a mod k)) by lia.
  reflexivity.
Qed.

(** Rounding up never passes the end of the address space by more than
    landing on it exactly. *)
Lemma round_up_bound a k :
  Word.is_word a -> is_pow2 k -> a mod k <> 0 ->
  a + (k - a mod k) <= Word.modulus /\ (a + (k - a mod k)) mod k = 0.
Proof.
  intros Ha Hk Hm.
  pose proof (is_pow2_range k Hk) as Hr.
  destruct (modulus_multiple k Hk) as (c & Hc & Hmod).
  pose proof (Z.div_mod a k ltac:(lia)) as Hdm.
  pose proof (Z.mod_pos_bound a k ltac:(lia)) as Hb.
  set (q := a / k) in *. set (m := a mod k) in *.
  assert (Heq : a + (k - m) = (q + 1) * k) by lia.
  split.
  - rewrite Heq, Hmod. destruct Ha as [Ha0 Ha1]. rewrite Hmod in Ha1.
    assert (q < c) by nia. nia.
  - rewrite Heq. apply Z.mod_mul. lia.
Qed.

(** What [align_forward] returns on a power-of-two alignment. *)
Lemma align_forward_spec a k :
  Word.is_word a -> is_pow2 k ->
  exists r, align_forward a k = Some r /\
            Word.is_word r /\
            r mod k = 0 /\
            r - a < k /\
            (a <= Word.modulus - k -> a <= r) /\
            (Word.modulus - k < a -> r = 0).
Proof.
  intros Ha Hk.
  pose proof (is_pow2_range k Hk) as Hr.
  pose proof (Z.mod_pos_bound a k ltac:(lia)) as Hb.
  destruct (modulus_multiple k Hk) as (c & Hc & Hmod).
  pose proof (Z.div_mod a k ltac:(lia)) as Hdm.
  rewrite (align_forward_eq a k Hk).
  pose proof Ha as [Ha0 Ha1].
  destruct (a mod k =? 0) eqn:E.
  - apply Z.eqb_eq in E. exists a. split; [reflexivity|].
    split; [exact Ha|]. split; [exact E|]. split; [lia|].
    split; [lia|].
    intros Hgt. exfalso. rewrite E in Hdm. rewrite Hmod in Hgt, Ha1.
    set (q := a / k) in *.
    assert (c - 1 < q) by nia. assert (q < c) by nia. lia.
  - apply Z.eqb_neq in E.
    destruct (round_up_bound a k Ha Hk E) as [Hle Hmul].
    eexists. split; [reflexivity|].
    destruct (Z.eq_dec (a + (k - a mod k)) Word.modulus) as [Heq | Hne].
    + rewrite Heq, Z.mod_same by (rewrite modulus_eq; lia).
      split; [unfold Word.is_word; lia|]. split; [apply Z.mod_0_l; lia|].
      split; [lia|]. split; [lia | reflexivity].
    + rewrite Z.mod_small by lia.
      split; [unfold Word.is_word; lia|]. split; [exact Hmul|].
      split; [lia|]. split; [lia|].
      intros Hgt. exfalso.
      set (q := a / k) in *.
      assert (Heq : a + (k - a mod k) = (q + 1) * k) by lia.
      rewrite Heq, Hmod in *.
      assert (q + 1 < c) by nia. assert (c - 1 < q + 1) by nia. lia.
Qed.

Lemma is_pow2_16 : is_pow2 16.
Proof. exists 4. unfold Word.bits. split; [lia | reflexivity]. Qed.

Lemma is_word_small z : 0 <= z < 4294967296 -> Word.is_word z.
Proof. unfold Word.is_word. rewrite modulus_eq. lia. Qed.

(** C5 (as amended).  For every address [a] and power-of-two alignment
    [k], [align_forward a k] is a multiple of [k] and lies less than [k]
    above [a] (as integers and as a word difference); it is at or above [a]
    whenever a multiple of [k] at or above [a] is an address, that is when
    [a <= 2^64 - k]; for the addresses above that the sum wraps and the
    result is [0]. *)
Theorem align_forward_correct a k :
  Word.is_word a -> is_pow2 k ->
  exists r, align_forward a k = Some r /\
            Word.is_word r /\
            r mod k = 0 /\
            r - a < k /\
            r -w a < k /\
            (a <= Word.modulus - k -> a <= r) /\
            (Word.modulus - k < a -> r = 0).
Proof.
  intros Ha Hk.
  pose proof (is_pow2_range k Hk) as Hr.
  destruct (align_forward_spec a k Ha Hk)
    as (r & Hrun & Hw & Hmod & Hlt & Hge & Hwrap).
  exists r. split; [exact Hrun|]. split; [exact Hw|]. split; [exact Hmod|].
  split; [exact Hlt|]. split; [ | split; assumption].
  unfold Word.is_word in Ha, Hw. unfold Word.sub, Word.wrap.
  destruct (Z_le_gt_dec a (Word.modulus - k)) as [Hle | Hgt].
  - specialize (Hge Hle). rewrite Z.mod_small; lia.
  - rewrite (Hwrap ltac:(lia)). replace (0 - a) with (- a) by lia.
    rewrite Z.mod_opp_l_nz; rewrite ?Z.mod_small; lia.
Qed.

Lemma align_forward_correct_witness :
  exists r, align_forward 10 16 = Some r /\
            Word.is_word r /\
            r mod 16 = 0 /\
            r - 10 < 16 /\
            r -w 10 < 16 /\
            (10 <= Word.modulus - 16 -> 10 <= r) /\
            (Word.modulus - 16 < 10 -> r = 0).
Proof.
  apply (align_forward_correct 10 16).
  - unfold Word.is_word. rewrite modulus_eq. lia.
  - exists 4. unfold Word.bits. split; [lia | reflexivity].
Defined.

(** C5 fails as stated: the last address of the address space is an
    address, 2 is a power of two, and [align_forward] returns 0 for them,
    which is below the address. *)
Lemma align_forward_wraps :
  Word.is_word (Word.modulus - 1) /\ is_pow2 2 /\
  align_forward (Word.modulus - 1) 2 = Some 0 /\
  ~ (0 >= Word.modulus - 1).
Proof.
  split; [unfold Word.is_word; rewrite modulus_eq; lia|].
  split; [exists 1; unfold Word.bits; split; [lia | reflexivity]|].
  split; [vm_compute; reflexivity|].
  rewrite modulus_eq. lia.
Qed.

(** ** [arena_aligned_alloc] *)

Lemma alloc_eq s al size :
  pow_2 al = true ->
  arena_aligned_alloc al size s =
  let a := ar s in
  let offset := aligned_offset a al in
  if offset +w size <=? cap a then
    Some (mem a +w offset,
          mkState (mkArena (mem a) (cap a) (offset +w size) offset)
                  (fill (heap s) (mem a +w offset) 0 size) (errno s)
                  (calls s ++ [Memset (mem a +w offset) 0 size]))
  else
    Some (NULL, mkState a (heap s) ENOMEM (calls s)).
Proof.
  intros Hp. unfold arena_aligned_alloc, aligned_offset, bind, get_arena, lift.
  unfold align_forward. rewrite Hp. cbv zeta.
  destruct (negb _);
    match goal with |- context [?x <=? cap (ar s)] => destruct (x <=? cap (ar s)) end;
    reflexivity.
Qed.

Lemma alloc_some_pow_2 s al size r s' :
  arena_aligned_alloc al size s = Some (r, s') -> pow_2 al = true.
Proof.
  unfold arena_aligned_alloc, bind, get_arena, lift, align_forward.
  destruct (pow_2 al); [reflexivity | discriminate].
Qed.

(** C6.  Whatever the store held before, and whatever the arena state,
    every byte of the span of [size] bytes a successful
    [arena_aligned_alloc] returns reads as zero right after the call. *)
Theorem alloc_zero_fill s al size r s' :
  arena_aligned_alloc al size s = Some (r, s') ->
  r <> NULL ->
  forall i, 0 <= i < size -> heap s' (r + i) = 0.
Proof.
  intros Hrun Hr i Hi.
  pose proof (alloc_some_pow_2 _ _ _ _ _ Hrun) as Hp.
  rewrite (alloc_eq s al size Hp) in Hrun. cbv zeta in Hrun.
  destruct (_ <=? _) in Hrun; injection Hrun as <- <-.
  - cbn [heap]. unfold fill, in_span.
    replace (_ <=? _) with true by (symmetry; apply Z.leb_le; lia).
    replace (_ <? _) with true by (symmetry; apply Z.ltb_lt; lia).
    reflexivity.
  - contradiction.
Qed.

(** The two branches of [arena_aligned_alloc], for every state.  With
    [offset] the forward-aligned offset the call computes and [sum] the
    sum [offset+size] the source compares with the capacity (a [size_t]
    sum, which is the integer sum whenever that is below [2^64]): the call
    takes its success branch exactly when [sum <= cap].  It then returns
    [&mem[offset]], records [prev_offset = offset] and [curr_offset = sum]
    and leaves [errno] alone; the pointer and its span lie inside the
    backing block whenever the sum did not wrap.  Otherwise it returns
    [NULL] with [errno = ENOMEM], and the arena (both offsets included),
    the store and the log are as before the call. *)
Lemma alloc_success_condition s al size :
  is_pow2 al -> Word.is_word size ->
  let a := ar s in
  let offset := aligned_offset a al in
  let sum := offset +w size in
  (offset + size < Word.modulus -> sum = offset + size) /\
  exists r s',
    arena_aligned_alloc al size s = Some (r, s') /\
    (sum <= cap a ->
       r = mem a +w offset /\
       ar s' = mkArena (mem a) (cap a) sum offset /\
       errno s' = errno s /\
       (arena_wf a -> offset + size < Word.modulus ->
        mem a <= r /\ r + size <= mem a + cap a)) /\
    (cap a < sum ->
       r = NULL /\ errno s' = ENOMEM /\
       ar s' = a /\ heap s' = heap s /\ calls s' = calls s).
Proof.
  intros Hal Hsz a offset sum.
  assert (Hoff : 0 <= offset).
  { unfold offset, aligned_offset.
    destruct (align_forward _ _); [apply wrap_is_word | lia]. }
  assert (Hexact : offset + size < Word.modulus -> sum = offset + size).
  { intros Hlt. unfold Word.is_word in Hsz. apply add_small; lia. }
  split; [exact Hexact|].
  rewrite (alloc_eq s al size (pow_2_is_pow2 al Hal)). cbv zeta.
  fold a. fold offset. fold sum.
  destruct (sum <=? cap a) eqn:E.
  - apply Z.leb_le in E. do 2 eexists. split; [reflexivity|]. split; [|lia].
    intros _. cbn [ar errno].
    split; [reflexivity|]. split; [reflexivity|]. split; [reflexivity|].
    intros [Hm Hb Hc Ho] Hlt. rewrite (Hexact Hlt) in E.
    unfold Word.is_word in Hsz. rewrite add_small by lia. lia.
  - apply Z.leb_gt in E. do 2 eexists. split; [reflexivity|]. split; [lia|].
    intros _. cbn. repeat split.
Qed.

Example alloc_success_condition_at_scenario :
  (exists r s',
     arena_aligned_alloc 16 5
       (mkState (mkArena 4096 64 10 0) (fun _ => 255) 0 []) = Some (r, s') /\
     r = 4112 /\ ar s' = mkArena 4096 64 21 16 /\
     4096 <= r /\ r + 5 <= 4096 + 64) /\
  (exists r s',
     arena_aligned_alloc 16 50
       (mkState (mkArena 4096 64 21 16) (fun _ => 255) 0 []) = Some (r, s') /\
     r = NULL /\ errno s' = ENOMEM /\ ar s' = mkArena 4096 64 21 16).
Proof.
  split.
  - destruct (alloc_success_condition
                (mkState (mkArena 4096 64 10 0) (fun _ => 255) 0 []) 16 5
                is_pow2_16 (is_word_small 5 ltac:(lia)))
      as (_ & r & s' & Hrun & Hok & _).
    exists r, s'. split; [exact Hrun|].
    destruct Hok as (Hr & Ha & _ & Hin); [vm_compute; discriminate|].
    split; [exact Hr|]. split; [exact Ha|].
    apply Hin.
    + constructor; cbn; rewrite ?modulus_eq; unfold offsets_ok; cbn; lia.
    + vm_compute. reflexivity.
  - destruct (alloc_success_condition
                (mkState (mkArena 4096 64 21 16) (fun _ => 255) 0 []) 16 50
                is_pow2_16 (is_word_small 50 ltac:(lia)))
      as (_ & r & s' & Hrun & _ & Hfail).
    exists r, s'. split; [exact Hrun|].
    destruct Hfail as (Hr & He & Ha & _); [vm_compute; reflexivity|].
    split; [exact Hr|]. split; [exact He | exact Ha].
Defined.

Lemma alloc_zero_fill_witness :
  exists r s',
    arena_aligned_alloc 16 8
      (mkState (mkArena 4096 64 0 0) (fun _ => 255) 0 []) = Some (r, s') /\
    r <> NULL /\ heap s' (r + 3) = 0.
Proof.
  destruct (arena_aligned_alloc 16 8
              (mkState (mkArena 4096 64 0 0) (fun _ => 255) 0 []))
    as [[r s'] | ] eqn:E; [ | vm_compute in E; discriminate].
  exists r, s'. split; [reflexivity|].
  assert (Hr : r = 4096) by (vm_compute in E; congruence).
  split; [rewrite Hr; discriminate|].
  apply (alloc_zero_fill _ 16 8 r s' E); [rewrite Hr; discriminate | lia].
Defined.

Lemma aligned_offset_nonneg a al : 0 <= aligned_offset a al.
Proof.
  unfold aligned_offset. destruct (align_forward _ _); [apply wrap_is_word | lia].
Qed.

(** Either rounding up ran off the end of the address space, and the
    offset leads back to address 0, or the offset is the cursor rounded up. *)
Lemma aligned_offset_cases a al :
  arena_wf a -> is_pow2 al ->
  aligned_offset a al = Word.modulus - mem a \/
  (curr_offset a <= aligned_offset a al /\
   aligned_offset a al - curr_offset a < al /\
   (mem a + aligned_offset a al) mod al = 0 /\
   mem a + aligned_offset a al < Word.modulus).
Proof.
  intros [Hm Hb Hc (Hp & Hpc & Hcc)] Hal.
  assert (Hx : Word.is_word (mem a + curr_offset a))
    by (unfold Word.is_word; lia).
  unfold aligned_offset. rewrite add_small by lia.
  destruct (align_forward_spec _ al Hx Hal)
    as (r & -> & Hr & Hmod & Hlt & Hge & Hwrap).
  destruct (Z_le_gt_dec (mem a + curr_offset a) (Word.modulus - al)) as [Hle | Hgt].
  - right. specialize (Hge Hle). unfold Word.is_word in Hr.
    rewrite sub_small by lia.
    replace (mem a + (r - mem a)) with r by lia.
    repeat split; lia.
  - left. rewrite (Hwrap ltac:(lia)).
    unfold Word.sub, Word.wrap.
    replace (0 - mem a) with (- mem a) by lia.
    rewrite Z.mod_opp_l_nz; rewrite ?Z.mod_small; lia.
Qed.

Lemma alloc_fits s al size :
  arena_wf (ar s) -> is_pow2 al -> Word.is_word size ->
  fits (ar s) al size ->
  let a := ar s in
  let offset := aligned_offset a al in
  curr_offset a <= offset /\
  arena_aligned_alloc al size s =
  Some (mem a + offset,
        mkState (mkArena (mem a) (cap a) (offset + size) offset)
                (fill (heap s) (mem a + offset) 0 size) (errno s)
                (calls s ++ [Memset (mem a + offset) 0 size])).
Proof.
  intros Hwf Hal Hsz Hfit. cbv zeta. unfold fits in Hfit.
  rewrite (alloc_eq s al size (pow_2_is_pow2 al Hal)). cbv zeta.
  pose proof (aligned_offset_nonneg (ar s) al) as Hn.
  pose proof Hwf as [Hm Hb Hc (Hp & Hpc & Hcc)].
  unfold Word.is_word in Hsz.
  destruct (aligned_offset_cases (ar s) al Hwf Hal) as [Hw | (Hge & _)]; [lia|].
  set (a := ar s) in *. set (offset := aligned_offset a al) in *.
  split; [exact Hge|].
  rewrite (add_small offset size) by lia.
  rewrite (add_small (mem a) offset) by lia.
  replace (offset + size <=? cap a) with true by (symmetry; apply Z.leb_le; lia).
  reflexivity.
Qed.

(** ** [arena_aligned_realloc] *)

(** The relocating path: [old] is inside the arena and is not where the most
    recent allocation begins. *)
Lemma realloc_relocate_eq s al old old_size new_size :
  pow_2 al = true ->
  old <> NULL -> old_size <> 0 ->
  mem (ar s) <= old < mem (ar s) +w cap (ar s) ->
  mem (ar s) +w prev_offset (ar s) <> old ->
  arena_aligned_realloc al old old_size new_size s =
  (new_mem <- arena_aligned_alloc al new_size ;;
   memmove new_mem old (if old_size <? new_size then old_size else new_size) ;;
   ret new_mem) s.
Proof.
  intros Hp Hold Hsz Hin Hprev.
  unfold arena_aligned_realloc. cbv zeta.
  unfold bind at 1. unfold assert. rewrite Hp.
  unfold bind at 1. unfold get_arena at 1.
  apply Z.eqb_neq in Hold, Hsz, Hprev. rewrite Hold, Hsz, Hprev. cbn [orb].
  replace (mem (ar s) <=? old) with true by (symmetry; apply Z.leb_le; lia).
  replace (old <? mem (ar s) +w cap (ar s)) with true
    by (symmetry; apply Z.ltb_lt; lia).
  reflexivity.
Qed.

(** The in-place path: [old] is where the most recent allocation begins. *)
Lemma realloc_in_place_eq s al old old_size new_size :
  pow_2 al = true ->
  old <> NULL -> old_size <> 0 ->
  mem (ar s) <= old < mem (ar s) +w cap (ar s) ->
  mem (ar s) +w prev_offset (ar s) = old ->
  arena_aligned_realloc al old old_size new_size s =
  let a := ar s in
  let curr := prev_offset a +w new_size in
  let a' := mkArena (mem a) (cap a) curr (prev_offset a) in
  if old_size <? new_size then
    Some (old, mkState a'
                 (fill (heap s) (mem a +w curr) 0 (new_size -w old_size))
                 (errno s)
                 (calls s ++ [Memset (mem a +w curr) 0 (new_size -w old_size)]))
  else
    Some (old, mkState a' (heap s) (errno s) (calls s)).
Proof.
  intros Hp Hold Hsz Hin Hprev.
  unfold arena_aligned_realloc. cbv zeta.
  unfold bind at 1. unfold assert. rewrite Hp.
  unfold bind at 1. unfold get_arena at 1.
  apply Z.eqb_neq in Hold, Hsz. apply Z.eqb_eq in Hprev.
  rewrite Hold, Hsz, Hprev. cbn [orb].
  replace (mem (ar s) <=? old) with true by (symmetry; apply Z.leb_le; lia).
  replace (old <? mem (ar s) +w cap (ar s)) with true
    by (symmetry; apply Z.ltb_lt; lia).
  cbn [andb]. destruct (old_size <? new_size); reflexivity.
Qed.


Lemma alloc_step_live m e s s' :
  arena_wf (ar s) -> mem (ar s) = m -> e <= curr_offset (ar s) ->
  alloc_step s s' ->
  arena_wf (ar s') /\ mem (ar s') = m /\ e <= prev_offset (ar s').
Proof.
  intros Hwf Hm He Hstep. destruct Hstep as [s al size r s' Hal Hsz Hfit Hrun].
  destruct (alloc_fits s al size Hwf Hal Hsz Hfit) as [Hge Heq].
  rewrite Heq in Hrun. injection Hrun as _ <-. cbn [ar mem prev_offset].
  pose proof Hwf as [Hm0 Hb Hc (Hp & Hpc & Hcc)].
  pose proof (aligned_offset_nonneg (ar s) al) as Hn.
  unfold fits in Hfit. unfold Word.is_word in Hsz.
  split; [ | split; [exact Hm | lia]].
  constructor; cbn; try assumption. unfold offsets_ok; cbn. lia.
Qed.

Lemma intervened_live m e s s' :
  intervened s s' ->
  arena_wf (ar s) -> mem (ar s) = m -> e <= curr_offset (ar s) ->
  arena_wf (ar s') /\ mem (ar s') = m /\ e <= prev_offset (ar s').
Proof.
  induction 1 as [s s' Hstep | s s' s'' Hsame _ IH
                 | s s' s'' _ IH Hstep | s s' s'' _ IH Hsame];
    intros Hwf Hm He.
  - exact (alloc_step_live m e s s' Hwf Hm He Hstep).
  - apply IH; rewrite Hsame; assumption.
  - destruct (IH Hwf Hm He) as (Hwf' & Hm' & He').
    apply (alloc_step_live m e s' s''); try assumption.
    destruct Hwf' as [_ _ _ (_ & Hpc & _)]. lia.
  - rewrite Hsame. apply IH; assumption.
Qed.




(** C1 at its failing input.  Over a backing block of stale bytes (255
    everywhere), [P = arena_aligned_alloc 16 8] followed at once by
    [arena_aligned_realloc 16 P 8 20] returns [P], sets the cursor to 20
    and leaves bytes [0, 8) of [P] alone, but the newly exposed bytes
    [8, 20) still read 255: the [memset] starts at the cursor already moved
    to 20 and zeroes bytes [20, 32) instead. *)
Theorem inplace_growth_tail_not_zeroed :
  exists s1 s2,
    (arena_init 4096 64 ;; arena_aligned_alloc 16 8) (blank 255)
      = Some (4096, s1) /\
    arena_aligned_realloc 16 4096 8 20 s1 = Some (4096, s2) /\
    prev_offset (ar s1) = 0 /\ curr_offset (ar s1) = 8 /\
    curr_offset (ar s2) = 20 /\ cap (ar s2) = 64 /\
    (forall i, 0 <= i < 8 -> heap s2 (4096 + i) = heap s1 (4096 + i)) /\
    (forall i, 8 <= i < 20 -> heap s2 (4096 + i) = 255) /\
    (forall i, 20 <= i < 32 -> heap s2 (4096 + i) = 0).
Proof.
  do 2 eexists.
  split; [cbv -[fill move poke]; reflexivity|].
  split; [cbv -[fill move poke]; reflexivity|].
  cbn [ar heap prev_offset curr_offset cap].
  repeat split; intros i Hi; span_cases.
Qed.

(** ** The offsets invariant *)

Lemma alloc_keeps_bounded s al size r s' :
  bounded (ar s) -> Word.is_word size ->
  aligned_offset (ar s) al + size < Word.modulus ->
  arena_aligned_alloc al size s = Some (r, s') ->
  bounded (ar s').
Proof.
  intros [(Hp & Hpc & Hcc) Hcap] Hsz Hsum Hrun.
  rewrite (alloc_eq s al size (alloc_some_pow_2 _ _ _ _ _ Hrun)) in Hrun.
  cbv zeta in Hrun.
  pose proof (aligned_offset_nonneg (ar s) al) as Hn.
  unfold Word.is_word in Hsz.
  rewrite (add_small (aligned_offset (ar s) al) size) in Hrun by lia.
  destruct (_ <=? _) eqn:E in Hrun; injection Hrun as _ <-.
  - apply Z.leb_le in E. unfold bounded, offsets_ok; cbn [ar mem cap curr_offset prev_offset]; lia.
  - unfold bounded, offsets_ok; cbn [ar mem cap curr_offset prev_offset]; lia.
Qed.

Lemma exec_keeps_bounded s o s' :
  bounded (ar s) -> op_in_bounds (ar s) o ->
  exec o s = Some (tt, s') ->
  bounded (ar s').
Proof.
  intros Hb Hin Hrun. pose proof Hb as [(Hp & Hpc & Hcc) Hcap].
  destruct o as [al size | al old osz nsz | | | ]; cbn [exec op_in_bounds] in *.
  - destruct Hin as [Hsz Hsum]. unfold bind in Hrun.
    destruct (arena_aligned_alloc al size s) as [[r s1] | ] eqn:E; [ | discriminate].
    injection Hrun as <-. exact (alloc_keeps_bounded s al size r s1 Hb Hsz Hsum E).
  - destruct Hin as (Hsz & Hsum & Hfit).
    unfold bind at 1 in Hrun.
    destruct (arena_aligned_realloc al old osz nsz s) as [[r s1] | ] eqn:E;
      [ | discriminate].
    injection Hrun as <-.
    unfold arena_aligned_realloc in E. cbv zeta in E.
    unfold bind at 1, assert in E.
    destruct (pow_2 al) eqn:Hpow; [ | discriminate].
    unfold bind at 1, get_arena at 1 in E.
    destruct ((old =? NULL) || (osz =? 0)).
    + exact (alloc_keeps_bounded s al nsz r s1 Hb Hsz Hsum E).
    + destruct ((mem (ar s) <=? old) && (old <? mem (ar s) +w cap (ar s))).
      * destruct (mem (ar s) +w prev_offset (ar s) =? old) eqn:Eprev.
        -- apply Z.eqb_eq in Eprev. specialize (Hfit Eprev).
           unfold Word.is_word in Hsz.
           assert (Hs1 : ar s1 = mkArena (mem (ar s)) (cap (ar s))
                                   (prev_offset (ar s) + nsz) (prev_offset (ar s))).
           { rewrite <- (add_small (prev_offset (ar s)) nsz) by lia.
             destruct (osz <? nsz); cbn in E; injection E as _ <-; reflexivity. }
           rewrite Hs1. unfold bounded, offsets_ok; cbn [ar mem cap curr_offset prev_offset]; lia.
        -- unfold bind at 1 in E.
           destruct (arena_aligned_alloc al nsz s) as [[q s2] | ] eqn:E2;
             [ | discriminate].
           pose proof (alloc_keeps_bounded s al nsz q s2 Hb Hsz Hsum E2) as Hb2.
           cbn in E. injection E as _ <-. exact Hb2.
      * cbn in E. injection E as _ <-. exact Hb.
  - cbv in Hrun. injection Hrun as <-. destruct s as [[m c cu p] h e l].
    unfold bounded, offsets_ok in *; cbn [ar mem cap curr_offset prev_offset] in *; lia.
  - destruct s as [[m c cu p] h e l]. cbv -[fill app] in Hrun.
    injection Hrun as <-.
    unfold bounded, offsets_ok in *; cbn [ar mem cap curr_offset prev_offset] in *; lia.
  - destruct s as [[m c cu p] h e l]. cbv -[fill app] in Hrun.
    injection Hrun as <-.
    unfold bounded, offsets_ok; cbn [ar mem cap curr_offset prev_offset].
    rewrite modulus_eq. lia.
Qed.

(** Apart from the two defects (a wrapped allocation sum, an in-place
    resize past the capacity) every run keeps the offsets invariant. *)
Lemma run_keeps_offsets_ok ops : forall s s',
  bounded (ar s) -> run_in_bounds ops s ->
  run ops s = Some (tt, s') ->
  offsets_ok (ar s').
Proof.
  induction ops as [ | o rest IH]; intros s s' Hb Hin Hrun.
  - cbn in Hrun. injection Hrun as <-. exact (proj1 Hb).
  - cbn [run run_in_bounds] in *. destruct Hin as [Ho Hrest].
    unfold bind in Hrun.
    destruct (exec o s) as [[[] s1] | ] eqn:E; [ | discriminate].
    apply (IH s1 s'); [ | apply Hrest; reflexivity | exact Hrun].
    exact (exec_keeps_bounded s o s1 Hb Ho E).
Qed.

Lemma init_bounded m c s :
  0 <= c < Word.modulus ->
  exists s', arena_init m c s = Some (tt, s') /\
             ar s' = mkArena m c 0 0 /\ bounded (ar s').
Proof.
  intros Hc. eexists. split; [reflexivity|]. cbn [ar].
  split; [reflexivity|].
  unfold bounded, offsets_ok; cbn [mem cap curr_offset prev_offset]; lia.
Qed.

(** C2 at its failing input.  From [arena_init] over 64 bytes, an
    allocation of 8 bytes grown in place to 100 leaves
    [curr_offset = 100 > 64 = cap]. *)
Theorem offsets_invariant_broken :
  exists s,
    reachable 4096 64 (blank 0) s /\
    cap (ar s) = 64 /\ curr_offset (ar s) = 100 /\ ~ offsets_ok (ar s).
Proof.
  eexists. split.
  - exists [Alloc 16 8; Realloc 16 4096 8 100].
    cbv -[fill move poke]. reflexivity.
  - cbn [ar cap curr_offset]. repeat split.
    unfold offsets_ok. cbn. lia.
Qed.

(** C3 at its failing input.  With the cursor at 16 in an arena of 64
    bytes, a request of [2^64 - 16] bytes ends, as an integer, far beyond
    the capacity; the [size_t] sum wraps to 0, the request is granted, and
    the arena is left with [prev_offset = 16] and [curr_offset = 0]. *)
Theorem alloc_accepts_wrapped_request :
  exists s1 s2,
    (arena_init 4096 64 ;; arena_aligned_alloc 16 16) (blank 0)
      = Some (4096, s1) /\
    aligned_offset (ar s1) 16 = 16 /\ cap (ar s1) = 64 /\
    cap (ar s1) < aligned_offset (ar s1) 16 + (Word.modulus - 16) /\
    arena_aligned_alloc 16 (Word.modulus - 16) s1 = Some (4112, s2) /\
    prev_offset (ar s2) = 16 /\ curr_offset (ar s2) = 0 /\
    errno s2 = 0 /\ ~ offsets_ok (ar s2).
Proof.
  do 2 eexists.
  split; [cbv -[fill move poke]; reflexivity|].
  split; [reflexivity|]. split; [reflexivity|].
  split; [vm_compute; reflexivity|].
  split; [cbv -[fill move poke]; reflexivity|].
  cbn [ar prev_offset curr_offset errno]. repeat split.
  unfold offsets_ok. cbn. lia.
Qed.

(** C4 at its failing input.  With the cursor at the end of an arena of
    10 bytes, the aligned offset is 16; a request of [2^64 - 16] bytes
    makes the aligned offset plus the size exceed the capacity, and yet the
    call is granted instead of failing: it returns [mem + 16], beyond the
    end of the backing block, and moves both offsets. *)
Theorem alloc_grants_past_capacity :
  exists s1 s2,
    (arena_init 4096 10 ;; arena_aligned_alloc 16 10) (blank 0)
      = Some (4096, s1) /\
    ar s1 = mkArena 4096 10 10 0 /\
    aligned_offset (ar s1) 16 = 16 /\
    cap (ar s1) < aligned_offset (ar s1) 16 + (Word.modulus - 16) /\
    arena_aligned_alloc 16 (Word.modulus - 16) s1 = Some (4112, s2) /\
    mem (ar s1) + cap (ar s1) < 4112 /\
    ar s2 = mkArena 4096 10 0 16 /\ errno s2 = 0.
Proof.
  do 2 eexists.
  split; [cbv -[fill move poke]; reflexivity|].
  split; [reflexivity|]. split; [reflexivity|].
  split; [vm_compute; reflexivity|].
  split; [cbv -[fill move poke]; reflexivity|].
  split; [vm_compute; reflexivity|].
  split; reflexivity.
Qed.

Lemma relocate_failure_eq s al old old_size new_size :
  pow_2 al = true ->
  old <> NULL -> old_size <> 0 ->
  mem (ar s) <= old < mem (ar s) +w cap (ar s) ->
  mem (ar s) +w prev_offset (ar s) <> old ->
  cap (ar s) < aligned_offset (ar s) al +w new_size ->
  arena_aligned_realloc al old old_size new_size s =
  let n := if old_size <? new_size then old_size else new_size in
  Some (NULL, mkState (ar s) (move (heap s) NULL old n) ENOMEM
                      (calls s ++ [Memmove NULL old n])).
Proof.
  intros Hp Hold Hsz Hin Hprev Hfail.
  rewrite realloc_relocate_eq by assumption.
  unfold bind. rewrite (alloc_eq s al new_size Hp). cbv zeta.
  replace (_ <=? _) with false by (symmetry; apply Z.leb_gt; exact Hfail).
  reflexivity.
Qed.

(** C8 at its failing input.  [P] is the first of two allocations of 8
    bytes in an arena of 64; [arena_aligned_realloc 16 P 8 100] relocates,
    its inner allocation fails, and the call does return [NULL] with
    [errno = ENOMEM] and the offsets untouched, but it has copied the 8
    bytes of [P] to address [NULL] on the way. *)
Theorem relocate_failure_copies_to_null :
  exists s1 s2,
    (arena_init 4096 64 ;;
     p <- arena_aligned_alloc 16 8 ;;
     arena_aligned_alloc 16 8 ;;
     store p 7) (blank 255) = Some (tt, s1) /\
    ar s1 = mkArena 4096 64 24 16 /\
    arena_aligned_realloc 16 4096 8 100 s1 = Some (NULL, s2) /\
    errno s2 = ENOMEM /\ ar s2 = ar s1 /\
    calls s2 = calls s1 ++ [Memmove NULL 4096 8] /\
    heap s1 NULL = 255 /\ heap s2 NULL = 7.
Proof.
  do 2 eexists.
  split; [cbv -[fill move poke]; reflexivity|].
  split; [reflexivity|].
  split; [cbv -[fill move poke]; reflexivity|].
  cbn [ar errno calls heap]. repeat split.
Qed.

(** C9 at its failing input.  A string of 15 bytes and its terminator,
    duplicated into an arena of 16 bytes: the copy is byte for byte the
    source, terminator included, and fills the 16 bytes allocated, and then
    [dup[len]] stores a byte at [mem + 16], one past the allocation and past
    the backing block. *)
Theorem strdup_writes_past_allocation :
  exists s0 s1,
    (arena_init 4096 16 ;; store 115 0) (blank 65) = Some (tt, s0) /\
    strlen_scan 20 (heap s0) 100 0 = Some 15 /\
    arena_strdup 20 100 s0 = Some (4096, s1) /\
    ar s1 = mkArena 4096 16 16 0 /\
    (forall i, 0 <= i < 16 -> heap s1 (4096 + i) = heap s0 (100 + i)) /\
    calls s1 = calls s0 ++ [Memset 4096 0 16; Memcpy 4096 100 16; Store 4112 0] /\
    heap s0 4112 = 65 /\ heap s1 4112 = 0.
Proof.
  exists (mkState (mkArena 4096 16 0 0) (poke (fun _ => 65) 115 0) 0 [Store 115 0]).
  eexists.
  split; [reflexivity|].
  split; [vm_compute; reflexivity|].
  split.
  - unfold arena_strdup, bind at 1, strlen. cbn [heap].
    replace (strlen_scan 20 _ 100 0) with (Some 15) by (vm_compute; reflexivity).
    cbv -[fill move poke]. reflexivity.
  - cbn [ar heap calls]. repeat split.
    intros i Hi. span_cases.
Qed.

(** C10 at its failing input.  [pow_2 0] is [true] although 0 has no set
    bit. *)
Theorem pow_2_accepts_zero :
  pow_2 0 = true /\ popcount 0 = 0%nat.
Proof. split; reflexivity. Qed.

(** The sibling helpers guard the copy and keep the terminator inside. *)
Lemma memdup_failure_no_copy s src size :
  cap (ar s) < aligned_offset (ar s) ARENA_DEFAULT_ALIGNMENT +w size ->
  arena_memdup src size s =
  Some (NULL, mkState (ar s) (heap s) ENOMEM (calls s)).
Proof.
  intros Hfail. unfold arena_memdup, arena_alloc, bind.
  change ARENA_DEFAULT_ALIGNMENT with 16 in *.
  rewrite (alloc_eq s _ size (pow_2_is_pow2 _ is_pow2_16)). cbv zeta.
  replace (_ <=? _) with false by (symmetry; apply Z.leb_gt; exact Hfail).
  reflexivity.
Qed.

Lemma strndup_store_inside :
  exists s1,
    arena_strndup 20 100 15
      (mkState (mkArena 4096 16 0 0) (poke (fun _ => 65) 115 0) 0 [])
      = Some (4096, s1) /\
    ar s1 = mkArena 4096 16 16 0 /\
    calls s1 = [Memset 4096 0 16; Memcpy 4096 100 15; Store 4111 0].
Proof.
  eexists. split.
  - unfold arena_strndup, bind at 1, strnlen. cbn [heap].
    replace (strnlen_scan 20 _ 100 15 0) with (Some 15) by (vm_compute; reflexivity).
    cbv -[fill move poke]. reflexivity.
  - split; reflexivity.
Qed.

(** Every successful [arena_strdup] ends with a store one past the [len]
    bytes it asked for. *)
Lemma strdup_trailing_store fuel src s dup s' :
  arena_strdup fuel src s = Some (dup, s') ->
  dup <> NULL ->
  exists n l,
    strlen_scan fuel (heap s) src 0 = Some n /\
    calls s' = l ++ [Store (dup +w (n +w 1)) 0].
Proof.
  unfold arena_strdup, arena_alloc, bind at 1, strlen.
  destruct (strlen_scan fuel (heap s) src 0) as [n | ]; [ | discriminate].
  unfold bind at 1. change ARENA_DEFAULT_ALIGNMENT with 16.
  rewrite (alloc_eq s _ _ (pow_2_is_pow2 _ is_pow2_16)). cbv zeta.
  destruct (_ <=? _).
  - unfold bind at 1.
    destruct (negb _) eqn:E.
    + cbn. intros H _. injection H as <- <-. cbn [calls].
      exists n. eexists. split; [reflexivity|]. reflexivity.
    + cbn. intros H Hn. injection H as <- <-.
      apply negb_false_iff, Z.eqb_eq in E. contradiction.
  - cbn. intros H Hn. injection H as <- <-. contradiction.
Qed.

(** * Further properties of the alignment primitives *)

Lemma pos_popcount_one_pow2 p :
  pos_popcount p = 1%nat -> exists i, 0 <= i /\ Zpos p = 2 ^ i.
Proof.
  induction p as [q IH | q IH | ]; cbn [pos_popcount]; intros H.
  - pose proof (pos_popcount_pos q). lia.
  - destruct (IH H) as (i & Hi & Hq). exists (i + 1). split; [lia|].
    rewrite Z.pow_add_r, <- Hq by lia. lia.
  - exists 0. split; [lia | reflexivity].
Qed.

Lemma popcount_one_is_pow2 v :
  0 < v < Word.modulus -> popcount v = 1%nat -> is_pow2 v.
Proof.
  intros Hv H. destruct v as [ | p | p]; try lia.
  destruct (pos_popcount_one_pow2 p H) as (i & Hi & Hp).
  exists i. split; [ | exact Hp]. split; [exact Hi|].
  destruct (Z_lt_ge_dec i Word.bits) as [Hlt | Hge]; [exact Hlt | exfalso].
  assert (Word.modulus <= 2 ^ i)
    by (unfold Word.modulus; apply Z.pow_le_mono_r; lia).
  lia.
Qed.

(** On the non-zero words [pow_2] holds of the powers of two and of nothing
    else. *)
Theorem pow_2_iff_power_of_two v :
  0 < v < Word.modulus -> (pow_2 v = true <-> is_pow2 v).
Proof.
  intros Hv. split.
  - intros H. apply popcount_one_is_pow2; [exact Hv|].
    apply pow_2_nonzero; assumption.
  - apply pow_2_is_pow2.
Qed.

Lemma pow_2_iff_power_of_two_witness :
  (pow_2 4096 = true <-> is_pow2 4096) /\ pow_2 4096 = true /\ pow_2 12 = false.
Proof.
  split; [ | split; reflexivity].
  apply (pow_2_iff_power_of_two 4096). rewrite modulus_eq. lia.
Defined.

(** The [assert] of [align_forward] stops every non-zero alignment that is
    not a power of two, and with it both allocation entry points. *)
Theorem bad_alignment_aborts al :
  0 < al < Word.modulus -> ~ is_pow2 al ->
  (forall p, align_forward p al = None) /\
  (forall size s, arena_aligned_alloc al size s = None) /\
  (forall old old_size new_size s,
      arena_aligned_realloc al old old_size new_size s = None).
Proof.
  intros Hal Hnot.
  assert (Hp : pow_2 al = false).
  { destruct (pow_2 al) eqn:E; [ | reflexivity]. exfalso. apply Hnot.
    apply popcount_one_is_pow2; [exact Hal|]. apply pow_2_nonzero; assumption. }
  assert (Haf : forall p, align_forward p al = None)
    by (intros p; unfold align_forward; rewrite Hp; reflexivity).
  split; [exact Haf|]. split.
  - intros size s. unfold arena_aligned_alloc, bind, get_arena, lift.
    rewrite Haf. reflexivity.
  - intros old osz nsz s. unfold arena_aligned_realloc, bind, assert.
    rewrite Hp. reflexivity.
Qed.

Lemma bad_alignment_aborts_witness :
  align_forward 100 24 = None /\
  arena_aligned_alloc 24 8 (blank 0) = None /\
  arena_aligned_realloc 24 0 0 8 (blank 0) = None.
Proof.
  assert (Hal : 0 < 24 < Word.modulus) by (rewrite modulus_eq; lia).
  assert (Hnot : ~ is_pow2 24).
  { intros (i & Hi & H). unfold Word.bits in Hi.
    assert (i < 5) by (apply (Z.pow_lt_mono_r_iff 2); lia).
    assert (Hc : i = 0 \/ i = 1 \/ i = 2 \/ i = 3 \/ i = 4) by lia.
    destruct Hc as [-> | [-> | [-> | [-> | ->]]]]; discriminate H. }
  destruct (bad_alignment_aborts 24 Hal Hnot) as (H1 & H2 & H3).
  split; [apply H1 | split; [apply H2 | apply H3]].
Defined.

(** With alignment 0, which the [assert] lets through, every address is
    sent to address 0. *)
Theorem align_forward_zero_alignment p :
  Word.is_word p -> align_forward p 0 = Some 0.
Proof.
  intros Hp. unfold align_forward.
  change (pow_2 0) with true. cbv zeta.
  assert (Hmask : Z.land p (0 -w 1) = p).
  { change (0 -w 1) with (Z.ones 64). rewrite Z.land_ones by lia.
    apply Z.mod_small. exact Hp. }
  rewrite Hmask.
  destruct (p =? 0) eqn:E; cbn [negb].
  - apply Z.eqb_eq in E. subst p. reflexivity.
  - apply Z.eqb_neq in E. f_equal. unfold Word.is_word in Hp.
    unfold Word.add, Word.sub, Word.wrap.
    replace (0 - p) with (- p) by lia.
    rewrite (Z.mod_opp_l_nz p) by (rewrite ?Z.mod_small; rewrite ?modulus_eq in *; lia).
    rewrite (Z.mod_small p) by lia.
    replace (p + (Word.modulus - p)) with Word.modulus by lia.
    apply Z.mod_same. rewrite modulus_eq. lia.
Qed.

Lemma align_forward_zero_alignment_witness : align_forward 4100 0 = Some 0.
Proof.
  apply align_forward_zero_alignment. unfold Word.is_word. rewrite modulus_eq. lia.
Defined.

(** Below the last [k] addresses, [align_forward a k] is the least multiple
    of [k] that is not below [a]. *)
Theorem align_forward_least a k :
  Word.is_word a -> is_pow2 k -> a <= Word.modulus - k ->
  exists r, align_forward a k = Some r /\
            a <= r /\ r mod k = 0 /\
            forall m, a <= m -> m mod k = 0 -> r <= m.
Proof.
  intros Ha Hk Hle.
  pose proof (is_pow2_range k Hk) as Hr.
  destruct (align_forward_spec a k Ha Hk) as (r & Hrun & _ & Hmod & Hlt & Hge & _).
  exists r. split; [exact Hrun|]. split; [exact (Hge Hle)|]. split; [exact Hmod|].
  intros m Ham Hm.
  apply Z.mod_divide in Hmod; [ | lia]. apply Z.mod_divide in Hm; [ | lia].
  destruct Hmod as [q1 Hq1]. destruct Hm as [q2 Hq2]. subst r m.
  destruct (Z_le_gt_dec q1 q2) as [Hq | Hq]; [nia|].
  exfalso. assert (q2 + 1 <= q1) by lia. nia.
Qed.

Lemma align_forward_least_witness :
  exists r, align_forward 21 16 = Some r /\
            21 <= r /\ r mod 16 = 0 /\
            forall m, 21 <= m -> m mod 16 = 0 -> r <= m.
Proof.
  apply (align_forward_least 21 16).
  - unfold Word.is_word. rewrite modulus_eq. lia.
  - exact is_pow2_16.
  - rewrite modulus_eq. lia.
Defined.

(** Aligning twice is aligning once; an aligned address is left where it
    is. *)
Theorem align_forward_idempotent a k r :
  Word.is_word a -> is_pow2 k ->
  align_forward a k = Some r -> align_forward r k = Some r.
Proof.
  intros Ha Hk Hrun.
  destruct (align_forward_spec a k Ha Hk) as (r' & Hrun' & _ & Hmod & _).
  rewrite Hrun in Hrun'. injection Hrun' as <-.
  rewrite (align_forward_eq r k Hk).
  apply Z.eqb_eq in Hmod. rewrite Hmod. reflexivity.
Qed.

Lemma align_forward_idempotent_witness :
  align_forward 21 16 = Some 32 /\ align_forward 32 16 = Some 32.
Proof.
  split; [reflexivity|].
  apply (align_forward_idempotent 21 16 32).
  - unfold Word.is_word. rewrite modulus_eq. lia.
  - exact is_pow2_16.
  - reflexivity.
Defined.

(** * Further properties of [arena_aligned_alloc] *)

(** A request that fits is granted: the pointer is aligned, it follows the
    cursor after a padding shorter than the alignment, its span ends within
    the backing block, and the arena records the span. *)
Theorem alloc_granted s al size :
  arena_wf (ar s) -> is_pow2 al -> Word.is_word size ->
  fits (ar s) al size ->
  exists r s',
    arena_aligned_alloc al size s = Some (r, s') /\
    r <> NULL /\ r mod al = 0 /\
    mem (ar s) + curr_offset (ar s) <= r < mem (ar s) + curr_offset (ar s) + al /\
    r + size <= mem (ar s) + cap (ar s) /\
    ar s' = mkArena (mem (ar s)) (cap (ar s))
                    (r - mem (ar s) + size) (r - mem (ar s)) /\
    arena_wf (ar s').
Proof.
  intros Hwf Hal Hsz Hfit.
  destruct (alloc_fits s al size Hwf Hal Hsz Hfit) as [Hge Heq].
  pose proof Hwf as [Hm Hb Hc (Hp & Hpc & Hcc)].
  pose proof (aligned_offset_nonneg (ar s) al) as Hn.
  unfold fits in Hfit. unfold Word.is_word in Hsz.
  destruct (aligned_offset_cases (ar s) al Hwf Hal)
    as [Hw | (_ & Hpad & Hmod & Hlt)]; [lia|].
  set (off := aligned_offset (ar s) al) in *.
  exists (mem (ar s) + off). eexists. split; [exact Heq|].
  cbn [ar].
  split; [unfold NULL; lia|]. split; [exact Hmod|]. split; [lia|].
  split; [lia|].
  split; [f_equal; lia|].
  constructor; cbn [mem cap curr_offset prev_offset]; try assumption.
  unfold offsets_ok; cbn [mem cap curr_offset prev_offset]. lia.
Qed.

Lemma alloc_granted_witness :
  exists r s',
    arena_aligned_alloc 16 5
      (mkState (mkArena 4096 64 10 0) (fun _ => 255) 0 []) = Some (r, s') /\
    r = 4112 /\ ar s' = mkArena 4096 64 21 16.
Proof.
  destruct (alloc_granted (mkState (mkArena 4096 64 10 0) (fun _ => 255) 0 [])
              16 5) as (r & s' & Hrun & _ & _ & _ & _ & Ha & _).
  - constructor; cbn; rewrite ?modulus_eq; unfold offsets_ok; cbn; lia.
  - exact is_pow2_16.
  - apply is_word_small. lia.
  - unfold fits. vm_compute. discriminate.
  - exists r, s'. split; [exact Hrun|].
    assert (Hr : r = 4112) by (vm_compute in Hrun; congruence).
    split; [exact Hr|]. rewrite Ha, Hr. reflexivity.
Defined.

Lemma fill_outside h p c n x : ~ (p <= x < p + n) -> fill h p c n x = h x.
Proof.
  intros Hx. unfold fill, in_span.
  destruct (Z.leb_spec p x); destruct (Z.ltb_spec x (p + n));
    cbn [andb]; try reflexivity.
  exfalso. apply Hx. lia.
Qed.

Lemma fill_inside h p c n x : p <= x < p + n -> fill h p c n x = c.
Proof.
  intros Hx. unfold fill, in_span.
  destruct (Z.leb_spec p x); destruct (Z.ltb_spec x (p + n));
    cbn [andb]; try reflexivity; lia.
Qed.

Lemma move_outside h d src n x : ~ (d <= x < d + n) -> move h d src n x = h x.
Proof.
  intros Hx. unfold move, in_span.
  destruct (Z.leb_spec d x); destruct (Z.ltb_spec x (d + n));
    cbn [andb]; try reflexivity.
  exfalso. apply Hx. lia.
Qed.

Lemma move_inside h d src n i : 0 <= i < n -> move h d src n (d + i) = h (src + i).
Proof.
  intros Hi. unfold move, in_span.
  destruct (Z.leb_spec d (d + i)); destruct (Z.ltb_spec (d + i) (d + n));
    cbn [andb]; try lia.
  f_equal. lia.
Qed.

Lemma poke_other h p v x : x <> p -> poke h p v x = h x.
Proof.
  intros Hx. unfold poke. destruct (Z.eqb_spec x p); [contradiction | reflexivity].
Qed.

Lemma poke_same h p v : poke h p v p = v.
Proof. unfold poke. rewrite Z.eqb_refl. reflexivity. Qed.

(** The store after an allocation call. *)
Lemma alloc_heap s al size r s' :
  arena_aligned_alloc al size s = Some (r, s') ->
  heap s' = fill (heap s) r 0 size \/ heap s' = heap s.
Proof.
  intros Hrun.
  rewrite (alloc_eq s al size (alloc_some_pow_2 _ _ _ _ _ Hrun)) in Hrun.
  cbv zeta in Hrun.
  destruct (_ <=? _) in Hrun; injection Hrun as <- <-; cbn [heap];
    [left | right]; reflexivity.
Qed.

(** An allocation call writes nowhere but in the span it returns: every
    other byte of memory, earlier allocations included, is as before.  A
    call that fails (the capacity test is not met) returns [NULL] and
    writes nothing at all. *)
Theorem alloc_frame s al size r s' :
  arena_aligned_alloc al size s = Some (r, s') ->
  (forall x, ~ (r <= x < r + size) -> heap s' x = heap s x) /\
  (cap (ar s) < aligned_offset (ar s) al +w size ->
   r = NULL /\ forall x, heap s' x = heap s x).
Proof.
  intros Hrun. split.
  - intros x Hx.
    destruct (alloc_heap s al size r s' Hrun) as [-> | ->]; [ | reflexivity].
    apply fill_outside. exact Hx.
  - intros Hfail.
    rewrite (alloc_eq s al size (alloc_some_pow_2 _ _ _ _ _ Hrun)) in Hrun.
    cbv zeta in Hrun.
    replace (_ <=? _) with false in Hrun by (symmetry; apply Z.leb_gt; exact Hfail).
    injection Hrun as <- <-. split; reflexivity.
Qed.

Lemma alloc_frame_witness :
  (exists s',
      arena_aligned_alloc 16 8
        (mkState (mkArena 4096 64 0 0) (fun _ => 255) 0 []) = Some (4096, s') /\
      heap s' 4096 = 0 /\ heap s' 4104 = 255) /\
  (exists s',
      arena_aligned_alloc 16 100
        (mkState (mkArena 4096 64 0 0) (fun _ => 255) 0 []) = Some (NULL, s') /\
      heap s' 0 = 255 /\ heap s' 4096 = 255).
Proof.
  set (s0 := mkState (mkArena 4096 64 0 0) (fun _ => 255) 0 []).
  split.
  - eassert (E : arena_aligned_alloc 16 8 s0 = Some (4096, _))
      by (cbv -[fill move poke]; reflexivity).
    match type of E with _ = Some (_, ?x) => set (s1 := x) in * end.
    exists s1. split; [exact E|]. split; [reflexivity|].
    destruct (alloc_frame s0 16 8 4096 s1 E) as [Hout _].
    rewrite (Hout 4104) by lia. reflexivity.
  - eassert (E : arena_aligned_alloc 16 100 s0 = Some (NULL, _))
      by (cbv -[fill move poke]; reflexivity).
    match type of E with _ = Some (_, ?x) => set (s1 := x) in * end.
    exists s1. split; [exact E|].
    destruct (alloc_frame s0 16 100 NULL s1 E) as [_ Hfail].
    destruct Hfail as [_ Hsame]; [vm_compute; reflexivity|].
    split; rewrite Hsame; reflexivity.
Defined.

(** A run of further allocations keeps the capacity. *)
Lemma intervened_cap s s' :
  intervened s s' -> arena_wf (ar s) -> cap (ar s') = cap (ar s).
Proof.
  induction 1 as [s s' Hstep | s s' s'' Hsame _ IH
                 | s s' s'' Hiv IH Hstep | s s' s'' _ IH Hsame];
    intros Hwf.
  - destruct Hstep as [s al size r s' Hal Hsz Hfit Hrun].
    destruct (alloc_fits s al size Hwf Hal Hsz Hfit) as [_ Heq].
    rewrite Heq in Hrun. injection Hrun as _ <-. reflexivity.
  - rewrite <- Hsame. apply IH. rewrite Hsame. exact Hwf.
  - rewrite <- (IH Hwf).
    destruct (intervened_live (mem (ar s)) 0 s s' Hiv Hwf eq_refl)
      as (Hwf' & _ & _); [destruct Hwf as [_ _ _ (? & ? & ?)]; lia|].
    destruct Hstep as [s' al size r s'' Hal Hsz Hfit Hrun].
    destruct (alloc_fits s' al size Hwf' Hal Hsz Hfit) as [_ Heq].
    rewrite Heq in Hrun. injection Hrun as _ <-. reflexivity.
  - rewrite Hsame. apply IH. exact Hwf.
Qed.

(** The state right after an allocation that fits. *)
Lemma allocation_state s0 al N P s1 :
  arena_wf (ar s0) -> is_pow2 al -> Word.is_word N -> fits (ar s0) al N ->
  arena_aligned_alloc al N s0 = Some (P, s1) ->
  arena_wf (ar s1) /\ mem (ar s1) = mem (ar s0) /\ cap (ar s1) = cap (ar s0) /\
  mem (ar s0) <= P /\ P = mem (ar s1) + prev_offset (ar s1) /\
  P + N = mem (ar s1) + curr_offset (ar s1).
Proof.
  intros Hwf Hal HN Hfit Halloc.
  destruct (alloc_fits s0 al N Hwf Hal HN Hfit) as [Hge Heq].
  rewrite Heq in Halloc. injection Halloc as HP Hs1.
  pose proof (aligned_offset_nonneg (ar s0) al) as Hn.
  pose proof Hwf as [Hm0 Hb Hc (Hp & Hpc & Hcc)].
  unfold fits in Hfit. unfold Word.is_word in HN.
  rewrite <- Hs1. cbn [ar mem cap curr_offset prev_offset].
  split.
  { constructor; cbn [mem cap curr_offset prev_offset]; try assumption.
    unfold offsets_ok; cbn [mem cap curr_offset prev_offset]. lia. }
  repeat split; lia.
Qed.

(** An earlier allocation stays below the cursor through whatever
    allocations and caller activity follow; once another allocation has
    been made it lies below the start of the most recent one. *)
Lemma allocation_stays_below_cursor s0 al N P s1 s2 :
  arena_wf (ar s0) -> is_pow2 al -> Word.is_word N -> fits (ar s0) al N ->
  arena_aligned_alloc al N s0 = Some (P, s1) ->
  ar s2 = ar s1 \/ intervened s1 s2 ->
  arena_wf (ar s2) /\ mem (ar s2) = mem (ar s0) /\ cap (ar s2) = cap (ar s0) /\
  mem (ar s0) <= P /\ P + N <= mem (ar s2) + curr_offset (ar s2) /\
  (intervened s1 s2 -> P + N <= mem (ar s2) + prev_offset (ar s2)).
Proof.
  intros Hwf Hal HN Hfit Halloc Hlater.
  destruct (allocation_state s0 al N P s1 Hwf Hal HN Hfit Halloc)
    as (Hwf1 & Hm1 & Hc1 & HP & HPp & HPc).
  assert (Hlive : forall s2, intervened s1 s2 ->
            arena_wf (ar s2) /\ mem (ar s2) = mem (ar s0) /\
            cap (ar s2) = cap (ar s0) /\
            P + N <= mem (ar s2) + prev_offset (ar s2)).
  { intros s Hiv.
    destruct (intervened_live (mem (ar s0)) (P + N - mem (ar s0)) s1 s Hiv Hwf1 Hm1)
      as (Hwf2 & Hm2 & Hl2); [lia|].
    pose proof (intervened_cap s1 s Hiv Hwf1) as Hc2.
    split; [exact Hwf2|]. split; [exact Hm2|]. split; [congruence | lia]. }
  destruct Hlater as [Hsame | Hiv].
  - rewrite Hsame. split; [exact Hwf1|]. split; [exact Hm1|].
    split; [exact Hc1|]. split; [exact HP|]. split; [lia|].
    intros Hiv. destruct (Hlive s2 Hiv) as (_ & _ & _ & H).
    rewrite Hsame in H. exact H.
  - destruct (Hlive s2 Hiv) as (Hwf2 & Hm2 & Hc2 & Hl2).
    pose proof Hwf2 as [_ _ _ (Hp2 & Hpc2 & Hcc2)].
    split; [exact Hwf2|]. split; [exact Hm2|]. split; [exact Hc2|].
    split; [exact HP|]. split; [lia | intros _; exact Hl2].
Qed.

(** Allocations never overlap: a later allocation begins at or after the
    end of every earlier one, and granting it leaves the earlier one's
    bytes as they were. *)
Theorem later_allocation_disjoint s0 al N P s1 s2 al' K Q s3 :
  arena_wf (ar s0) -> is_pow2 al -> is_pow2 al' ->
  Word.is_word N -> Word.is_word K ->
  fits (ar s0) al N ->
  arena_aligned_alloc al N s0 = Some (P, s1) ->
  ar s2 = ar s1 \/ intervened s1 s2 ->
  fits (ar s2) al' K ->
  arena_aligned_alloc al' K s2 = Some (Q, s3) ->
  P + N <= Q /\
  forall i, 0 <= i < N -> heap s3 (P + i) = heap s2 (P + i).
Proof.
  intros Hwf Hal Hal' HN HK Hfit Halloc Hlater Hfit' Halloc'.
  destruct (allocation_stays_below_cursor s0 al N P s1 s2
              Hwf Hal HN Hfit Halloc Hlater) as (Hwf2 & Hm2 & _ & HP & Hend & _).
  destruct (alloc_fits s2 al' K Hwf2 Hal' HK Hfit') as [Hge Heq].
  assert (HQ : Q = mem (ar s2) + aligned_offset (ar s2) al')
    by (rewrite Heq in Halloc'; congruence).
  assert (Hle : P + N <= Q) by lia.
  split; [exact Hle|].
  intros i Hi.
  destruct (alloc_heap s2 al' K Q s3 Halloc') as [-> | ->]; [ | reflexivity].
  apply fill_outside. lia.
Qed.

Lemma later_allocation_disjoint_witness :
  exists P s1 Q s3,
    arena_aligned_alloc 16 10
      (mkState (mkArena 4096 64 0 0) (fun _ => 255) 0 []) = Some (P, s1) /\
    arena_aligned_alloc 16 5 s1 = Some (Q, s3) /\
    P + 10 <= Q /\ heap s3 (P + 3) = heap s1 (P + 3).
Proof.
  set (s0 := mkState (mkArena 4096 64 0 0) (fun _ => 255) 0 []).
  eassert (E0 : arena_aligned_alloc 16 10 s0 = Some (4096, _))
    by (cbv -[fill move poke]; reflexivity).
  match type of E0 with _ = Some (_, ?x) => set (s1 := x) in * end.
  eassert (E1 : arena_aligned_alloc 16 5 s1 = Some (_, _))
    by (cbv -[fill move poke]; reflexivity).
  match type of E1 with _ = Some (?q, ?x) => set (Q := q) in *; set (s3 := x) in * end.
  assert (Hwf : arena_wf (ar s0)).
  { constructor; cbn; rewrite ?modulus_eq; unfold offsets_ok; cbn; lia. }
  destruct (later_allocation_disjoint s0 16 10 4096 s1 s1 16 5 Q s3 Hwf
              is_pow2_16 is_pow2_16 (is_word_small 10 ltac:(lia))
              (is_word_small 5 ltac:(lia))) as [Hle Hbytes].
  - unfold fits. vm_compute. discriminate.
  - exact E0.
  - left. reflexivity.
  - unfold fits. vm_compute. discriminate.
  - exact E1.
  - exists 4096, s1, Q, s3. split; [exact E0|]. split; [exact E1|].
    split; [exact Hle|]. apply Hbytes. lia.
Defined.

(** The aligned offset when rounding up stays inside the address space. *)
Lemma aligned_offset_no_wrap a al :
  arena_wf a -> is_pow2 al ->
  mem a + curr_offset a <= Word.modulus - al ->
  curr_offset a <= aligned_offset a al /\
  aligned_offset a al - curr_offset a < al /\
  (mem a + aligned_offset a al) mod al = 0.
Proof.
  intros [Hm Hb Hc (Hp & Hpc & Hcc)] Hal Hle.
  assert (Hx : Word.is_word (mem a + curr_offset a))
    by (unfold Word.is_word; lia).
  unfold aligned_offset. rewrite add_small by lia.
  destruct (align_forward_spec _ al Hx Hal)
    as (r & -> & Hr & Hmod & Hlt & Hge & _).
  specialize (Hge Hle). unfold Word.is_word in Hr.
  rewrite sub_small by lia.
  replace (mem a + (r - mem a)) with r by lia.
  repeat split; lia.
Qed.

(** Room for the size and for the worst padding is room enough: the
    request is granted. *)
Theorem alloc_enough_room s al size :
  arena_wf (ar s) -> is_pow2 al -> Word.is_word size ->
  curr_offset (ar s) + (al - 1) + size <= cap (ar s) ->
  exists r s',
    arena_aligned_alloc al size s = Some (r, s') /\
    r <> NULL /\ mem (ar s) <= r /\ r + size <= mem (ar s) + cap (ar s).
Proof.
  intros Hwf Hal Hsz Hroom.
  pose proof Hwf as [Hm Hb Hc (Hp & Hpc & Hcc)].
  pose proof (is_pow2_range al Hal) as Hr.
  unfold Word.is_word in Hsz.
  assert (Hfit : fits (ar s) al size).
  { unfold fits.
    destruct (aligned_offset_no_wrap (ar s) al Hwf Hal) as (_ & Hpad & _); lia. }
  destruct (alloc_fits s al size Hwf Hal Hsz Hfit) as [Hge Heq].
  pose proof (aligned_offset_nonneg (ar s) al) as Hn.
  unfold fits in Hfit.
  do 2 eexists. split; [exact Heq|]. unfold NULL. lia.
Qed.

Lemma alloc_enough_room_witness :
  exists r s',
    arena_aligned_alloc 16 5
      (mkState (mkArena 4096 64 10 0) (fun _ => 255) 0 []) = Some (r, s') /\
    r <> NULL /\ 4096 <= r /\ r + 5 <= 4096 + 64.
Proof.
  apply (alloc_enough_room (mkState (mkArena 4096 64 10 0) (fun _ => 255) 0 [])
           16 5).
  - constructor; cbn; rewrite ?modulus_eq; unfold offsets_ok; cbn; lia.
  - exact is_pow2_16.
  - apply is_word_small. lia.
  - cbn. lia.
Defined.

(** * Lifecycle *)

Lemma deinit_eq s :
  arena_deinit s =
  Some (tt, mkState (mkArena 0 0 0 0)
                    (fill (heap s) (mem (ar s)) 0 (curr_offset (ar s)))
                    (errno s)
                    (calls s ++ [Memset (mem (ar s)) 0 (curr_offset (ar s))])).
Proof. reflexivity. Qed.

Lemma zero_eq s :
  arena_zero s =
  Some (tt, mkState (mkArena (mem (ar s)) (cap (ar s)) 0 0)
                    (fill (heap s) (mem (ar s)) 0 (curr_offset (ar s)))
                    (errno s)
                    (calls s ++ [Memset (mem (ar s)) 0 (curr_offset (ar s))])).
Proof. reflexivity. Qed.

(** After [arena_deinit] nothing is granted any more: every allocation and
    reallocation request for a positive size returns [NULL] with
    [errno = ENOMEM] and leaves the unbound arena and the memory alone. *)
Theorem after_deinit_nothing_is_granted s s1 al size :
  is_pow2 al -> Word.is_word size -> 0 < size ->
  arena_deinit s = Some (tt, s1) ->
  (exists s2, arena_aligned_alloc al size s1 = Some (NULL, s2) /\
              errno s2 = ENOMEM /\ ar s2 = mkArena 0 0 0 0 /\
              heap s2 = heap s1) /\
  (forall old old_size,
     exists s2, arena_aligned_realloc al old old_size size s1 = Some (NULL, s2) /\
                errno s2 = ENOMEM /\ ar s2 = mkArena 0 0 0 0 /\
                heap s2 = heap s1).
Proof.
  intros Hal Hsz Hpos Hde. rewrite deinit_eq in Hde. injection Hde as Hs1.
  pose proof (pow_2_is_pow2 al Hal) as Hp.
  pose proof (is_pow2_range al Hal) as Hr.
  assert (Ha1 : ar s1 = mkArena 0 0 0 0) by (rewrite <- Hs1; reflexivity).
  assert (Hoff : aligned_offset (ar s1) al = 0).
  { rewrite Ha1. unfold aligned_offset. cbn [mem curr_offset].
    change (0 +w 0) with 0. rewrite (align_forward_eq 0 al Hal).
    rewrite Z.mod_0_l by lia. reflexivity. }
  assert (Halloc : arena_aligned_alloc al size s1 =
                   Some (NULL, mkState (ar s1) (heap s1) ENOMEM (calls s1))).
  { rewrite (alloc_eq s1 al size Hp). cbv zeta. rewrite Hoff.
    unfold Word.is_word in Hsz. rewrite add_small by lia.
    rewrite Ha1. cbn [cap mem].
    replace (0 + size <=? 0) with false by (symmetry; apply Z.leb_gt; lia).
    reflexivity. }
  split.
  - eexists. split; [exact Halloc|]. cbn. repeat split. exact Ha1.
  - intros old osz.
    unfold arena_aligned_realloc. cbv zeta.
    unfold bind at 1, assert. rewrite Hp.
    unfold bind at 1, get_arena at 1.
    destruct ((old =? NULL) || (osz =? 0)).
    + eexists. split; [exact Halloc|]. cbn. repeat split. exact Ha1.
    + rewrite Ha1. cbn [mem cap]. change (0 +w 0) with 0.
      replace ((0 <=? old) && (old <? 0)) with false
        by (destruct (Z.leb_spec 0 old); destruct (Z.ltb_spec old 0);
            cbn [andb]; try reflexivity; lia).
      eexists. split; [reflexivity|]. cbn. repeat split. exact Ha1.
Qed.

Lemma after_deinit_nothing_is_granted_witness :
  exists s1 s2,
    arena_deinit (mkState (mkArena 4096 64 21 16) (fun _ => 255) 0 [])
      = Some (tt, s1) /\
    arena_aligned_alloc 16 1 s1 = Some (NULL, s2) /\ errno s2 = ENOMEM.
Proof.
  set (s := mkState (mkArena 4096 64 21 16) (fun _ => 255) 0 []).
  eassert (E : arena_deinit s = Some (tt, _)) by reflexivity.
  match type of E with _ = Some (_, ?x) => set (s1 := x) in * end.
  destruct (after_deinit_nothing_is_granted s s1 16 1 is_pow2_16
              (is_word_small 1 ltac:(lia)) ltac:(lia) E)
    as [(s2 & Hrun & Herr & _) _].
  exists s1, s2. split; [exact E|]. split; [exact Hrun | exact Herr].
Defined.

(** [arena_zero] and [arena_deinit] both erase every allocation made since
    the arena was last rewound and write nowhere outside the backing block;
    the first rewinds the arena, the second leaves it unbound. *)
Theorem wipe_erases_allocations s0 al N P s1 s2 :
  arena_wf (ar s0) -> is_pow2 al -> Word.is_word N -> fits (ar s0) al N ->
  arena_aligned_alloc al N s0 = Some (P, s1) ->
  ar s2 = ar s1 \/ intervened s1 s2 ->
  exists sz sd,
    arena_zero s2 = Some (tt, sz) /\ arena_deinit s2 = Some (tt, sd) /\
    (forall i, 0 <= i < N -> heap sz (P + i) = 0 /\ heap sd (P + i) = 0) /\
    (forall x, ~ (mem (ar s0) <= x < mem (ar s0) + cap (ar s0)) ->
               heap sz x = heap s2 x /\ heap sd x = heap s2 x) /\
    ar sz = mkArena (mem (ar s0)) (cap (ar s0)) 0 0 /\
    ar sd = mkArena NULL 0 0 0.
Proof.
  intros Hwf Hal HN Hfit Halloc Hlater.
  destruct (allocation_stays_below_cursor s0 al N P s1 s2
              Hwf Hal HN Hfit Halloc Hlater) as (Hwf2 & Hm2 & Hc2 & HP & Hend & _).
  destruct Hwf2 as [_ _ _ (Hp2 & Hpc2 & Hcc2)].
  rewrite zero_eq, deinit_eq. do 2 eexists.
  split; [reflexivity|]. split; [reflexivity|]. cbn [heap ar].
  rewrite Hm2, Hc2 in *.
  split; [ | split; [ | split; reflexivity]].
  - intros i Hi. split; apply fill_inside; lia.
  - intros x Hx. split; apply fill_outside; lia.
Qed.

Lemma wipe_erases_allocations_witness :
  exists P s1 s2 sz sd,
    arena_aligned_alloc 16 8
      (mkState (mkArena 4096 64 0 0) (fun _ => 255) 0 []) = Some (P, s1) /\
    heap s2 (P + 2) = 7 /\
    arena_zero s2 = Some (tt, sz) /\ arena_deinit s2 = Some (tt, sd) /\
    heap sz (P + 2) = 0 /\ heap sd (P + 2) = 0 /\
    ar sz = mkArena 4096 64 0 0 /\ ar sd = mkArena NULL 0 0 0.
Proof.
  set (s0 := mkState (mkArena 4096 64 0 0) (fun _ => 255) 0 []).
  eassert (E0 : arena_aligned_alloc 16 8 s0 = Some (4096, _))
    by (cbv -[fill move poke]; reflexivity).
  match type of E0 with _ = Some (_, ?x) => set (s1 := x) in * end.
  set (s2 := mkState (ar s1) (poke (heap s1) 4098 7) (errno s1) (calls s1)).
  assert (Hwf : arena_wf (ar s0)).
  { constructor; cbn; rewrite ?modulus_eq; unfold offsets_ok; cbn; lia. }
  destruct (wipe_erases_allocations s0 16 8 4096 s1 s2 Hwf is_pow2_16
              (is_word_small 8 ltac:(lia)))
    as (sz & sd & Ez & Ed & Hz & _ & Haz & Had).
  - unfold fits. vm_compute. discriminate.
  - exact E0.
  - left. reflexivity.
  - exists 4096, s1, s2, sz, sd. split; [exact E0|]. split; [reflexivity|].
    split; [exact Ez|]. split; [exact Ed|].
    destruct (Hz 2 ltac:(lia)) as [H1 H2].
    split; [exact H1|]. split; [exact H2|]. split; [exact Haz | exact Had].
Defined.

Lemma run_keeps_offsets_ok_witness :
  exists s',
    run [Alloc 16 10; Alloc 16 5; Alloc 16 50; Realloc 16 4112 5 20;
         Reset; Alloc 16 64; Zero; Deinit]
        (mkState (mkArena 4096 64 0 0) (fun _ => 255) 0 []) = Some (tt, s') /\
    offsets_ok (ar s').
Proof.
  set (s0 := mkState (mkArena 4096 64 0 0) (fun _ => 255) 0 []).
  set (ops := [Alloc 16 10; Alloc 16 5; Alloc 16 50; Realloc 16 4112 5 20;
               Reset; Alloc 16 64; Zero; Deinit]).
  eassert (E : run ops s0 = Some (tt, _))
    by (cbv -[fill move poke]; reflexivity).
  match type of E with _ = Some (_, ?x) => set (s' := x) in * end.
  exists s'. split; [exact E|].
  apply (run_keeps_offsets_ok ops s0 s').
  - unfold bounded, offsets_ok; cbn [s0 ar cap curr_offset prev_offset].
    rewrite modulus_eq. lia.
  - unfold ops.
    repeat (cbn [run_in_bounds]; split;
            [ cbn [op_in_bounds]; unfold Word.is_word; rewrite ?modulus_eq;
              repeat match goal with
                     | |- context [aligned_offset ?a ?al] =>
                         let v := eval vm_compute in (aligned_offset a al) in
                         change (aligned_offset a al) with v
                     | |- context [?x +w ?y] =>
                         let v := eval vm_compute in (x +w y) in
                         change (x +w y) with v
                     end;
              cbn [ar mem cap curr_offset prev_offset];
              try exact I; repeat split; try lia; intros _; lia
            | let s'' := fresh "s" in let H := fresh "H" in
              intros s'' H; cbv -[fill move poke] in H;
              injection H as <- ]).
    exact I.
  - exact E.
Defined.

(** * Further properties of [arena_aligned_realloc] *)

(** A pointer the arena does not own is refused: [NULL], [errno = ENOMEM],
    and nothing else changes. *)
Theorem realloc_foreign_pointer s al old old_size new_size :
  arena_wf (ar s) -> is_pow2 al ->
  old <> NULL -> old_size <> 0 ->
  old < mem (ar s) \/ mem (ar s) + cap (ar s) <= old ->
  exists s',
    arena_aligned_realloc al old old_size new_size s = Some (NULL, s') /\
    errno s' = ENOMEM /\ ar s' = ar s /\ heap s' = heap s /\
    calls s' = calls s.
Proof.
  intros [Hm Hb Hc _] Hal Hold Hsz Hout.
  unfold arena_aligned_realloc. cbv zeta.
  unfold bind at 1, assert. rewrite (pow_2_is_pow2 al Hal).
  unfold bind at 1, get_arena at 1.
  apply Z.eqb_neq in Hold, Hsz. rewrite Hold, Hsz. cbn [orb].
  rewrite add_small by lia.
  replace ((mem (ar s) <=? old) && (old <? mem (ar s) + cap (ar s))) with false
    by (destruct (Z.leb_spec (mem (ar s)) old);
        destruct (Z.ltb_spec old (mem (ar s) + cap (ar s)));
        cbn [andb]; try reflexivity; lia).
  eexists. split; [reflexivity|]. cbn. repeat split.
Qed.

Lemma realloc_foreign_pointer_witness :
  exists s',
    arena_aligned_realloc 16 8192 8 16
      (mkState (mkArena 4096 64 21 16) (fun _ => 255) 0 []) = Some (NULL, s') /\
    errno s' = ENOMEM /\ ar s' = mkArena 4096 64 21 16.
Proof.
  destruct (realloc_foreign_pointer
              (mkState (mkArena 4096 64 21 16) (fun _ => 255) 0 []) 16 8192 8 16)
    as (s' & Hrun & He & Ha & _).
  - constructor; cbn; rewrite ?modulus_eq; unfold offsets_ok; cbn; lia.
  - exact is_pow2_16.
  - discriminate.
  - discriminate.
  - right. cbn. lia.
  - exists s'. split; [exact Hrun|]. split; [exact He | exact Ha].
Defined.

(** Shrinking the most recent allocation, or keeping its size: the pointer
    stays, no byte of memory is written, the cursor moves to the new end and
    the offsets invariant is kept. *)
Theorem realloc_shrink_in_place s al N M :
  arena_wf (ar s) -> is_pow2 al ->
  0 < N -> 0 <= M <= N ->
  prev_offset (ar s) + N <= cap (ar s) ->
  let P := mem (ar s) + prev_offset (ar s) in
  exists s',
    arena_aligned_realloc al P N M s = Some (P, s') /\
    ar s' = mkArena (mem (ar s)) (cap (ar s))
                    (prev_offset (ar s) + M) (prev_offset (ar s)) /\
    heap s' = heap s /\ calls s' = calls s /\ errno s' = errno s /\
    arena_wf (ar s').
Proof.
  intros Hwf Hal HN HM Hend P.
  pose proof Hwf as [Hm Hb Hc (Hp & Hpc & Hcc)].
  rewrite (realloc_in_place_eq s al P N M (pow_2_is_pow2 al Hal));
    unfold P, NULL; rewrite ?add_small by lia; try lia.
  cbv zeta.
  replace (N <? M) with false by (symmetry; apply Z.ltb_ge; lia).
  eexists. split; [reflexivity|]. cbn [ar heap calls errno].
  do 4 (split; [reflexivity|]).
  constructor; cbn [mem cap curr_offset prev_offset]; try assumption.
  unfold offsets_ok; cbn [mem cap curr_offset prev_offset]. lia.
Qed.

Lemma realloc_shrink_in_place_witness :
  exists s',
    arena_aligned_realloc 16 4112 5 2
      (mkState (mkArena 4096 64 21 16) (fun _ => 255) 0 []) = Some (4112, s') /\
    ar s' = mkArena 4096 64 18 16 /\ heap s' 4112 = 255.
Proof.
  destruct (realloc_shrink_in_place
              (mkState (mkArena 4096 64 21 16) (fun _ => 255) 0 []) 16 5 2)
    as (s' & Hrun & Ha & Hh & _).
  - constructor; cbn; rewrite ?modulus_eq; unfold offsets_ok; cbn; lia.
  - exact is_pow2_16.
  - lia.
  - lia.
  - cbn. lia.
  - exists s'. split; [exact Hrun|]. split; [exact Ha|]. rewrite Hh. reflexivity.
Defined.

(** Growing the most recent allocation in place: the pointer stays, the
    cursor moves to the new end, and the only bytes written are the
    [M - N] bytes that follow the new end; the old contents, and everything
    else below the new end, are kept. *)
Theorem realloc_grow_in_place s al N M :
  arena_wf (ar s) -> is_pow2 al ->
  0 < N < M ->
  prev_offset (ar s) + N <= cap (ar s) ->
  mem (ar s) + prev_offset (ar s) + M < Word.modulus ->
  let P := mem (ar s) + prev_offset (ar s) in
  exists s',
    arena_aligned_realloc al P N M s = Some (P, s') /\
    ar s' = mkArena (mem (ar s)) (cap (ar s))
                    (prev_offset (ar s) + M) (prev_offset (ar s)) /\
    (forall x, ~ (P + M <= x < P + M + (M - N)) -> heap s' x = heap s x) /\
    (forall x, P + M <= x < P + M + (M - N) -> heap s' x = 0).
Proof.
  intros Hwf Hal HN Hend Hnew P.
  pose proof Hwf as [Hm Hb Hc (Hp & Hpc & Hcc)].
  rewrite (realloc_in_place_eq s al P N M (pow_2_is_pow2 al Hal));
    unfold P, NULL; rewrite ?add_small by lia; try lia.
  cbv zeta.
  replace (N <? M) with true by (symmetry; apply Z.ltb_lt; lia).
  rewrite ?(add_small (prev_offset (ar s)) M) by lia.
  rewrite ?(add_small (mem (ar s))) by lia.
  rewrite (sub_small M N) by lia.
  eexists. split; [reflexivity|]. cbn [ar heap].
  split; [reflexivity|].
  split; intros x Hx; [apply fill_outside | apply fill_inside]; lia.
Qed.

Lemma realloc_grow_in_place_witness :
  exists s',
    arena_aligned_realloc 16 4112 5 9
      (mkState (mkArena 4096 64 21 16) (poke (fun _ => 255) 4113 7) 0 [])
      = Some (4112, s') /\
    ar s' = mkArena 4096 64 25 16 /\ heap s' 4113 = 7 /\ heap s' 4121 = 0.
Proof.
  destruct (realloc_grow_in_place
              (mkState (mkArena 4096 64 21 16) (poke (fun _ => 255) 4113 7) 0 [])
              16 5 9)
    as (s' & Hrun & Ha & Hkeep & Hzero).
  - constructor; cbn; rewrite ?modulus_eq; unfold offsets_ok; cbn; lia.
  - exact is_pow2_16.
  - lia.
  - cbn. lia.
  - cbn [ar mem prev_offset]. rewrite modulus_eq. lia.
  - exists s'. split; [exact Hrun|]. split; [exact Ha|]. split.
    + rewrite Hkeep; [reflexivity | cbn; lia].
    + apply Hzero. cbn. lia.
Defined.

(** Relocation, laid out: the new block is aligned, lies after the old one
    and within the backing block; its bytes beyond the copied ones are
    zero; nothing outside the new block is written, so the old block still
    holds its bytes; and the arena records the new block as its most recent
    allocation. *)
Theorem relocation_layout s0 al N P s1 s2 al' M :
  arena_wf (ar s0) -> is_pow2 al -> is_pow2 al' ->
  Word.is_word N -> 0 < N -> Word.is_word M ->
  fits (ar s0) al N ->
  arena_aligned_alloc al N s0 = Some (P, s1) ->
  intervened s1 s2 ->
  fits (ar s2) al' M ->
  exists r s3,
    arena_aligned_realloc al' P N M s2 = Some (r, s3) /\
    P + N <= r /\ r mod al' = 0 /\
    r + M <= mem (ar s0) + cap (ar s0) /\
    (forall i, N <= i < M -> heap s3 (r + i) = 0) /\
    (forall x, ~ (r <= x < r + M) -> heap s3 x = heap s2 x) /\
    ar s3 = mkArena (mem (ar s0)) (cap (ar s0))
                    (r - mem (ar s0) + M) (r - mem (ar s0)).
Proof.
  intros Hwf Hal Hal' HN HN0 HM Hfit Halloc Hiv Hfit'.
  destruct (allocation_stays_below_cursor s0 al N P s1 s2
              Hwf Hal HN Hfit Halloc (or_intror Hiv))
    as (Hwf2 & Hm2 & Hc2 & HP & _ & Hprev).
  specialize (Hprev Hiv).
  pose proof Hwf2 as [Hm Hb Hc (Hp & Hpc & Hcc)].
  pose proof (aligned_offset_nonneg (ar s2) al') as Hn.
  pose proof Hfit' as Hfit2. unfold fits in Hfit2.
  unfold Word.is_word in HM.
  destruct (alloc_fits s2 al' M Hwf2 Hal' HM Hfit') as [Hge Heq].
  destruct (aligned_offset_cases (ar s2) al' Hwf2 Hal')
    as [Hw | (_ & _ & Hmod & _)]; [lia|].
  rewrite realloc_relocate_eq;
    [ | exact (pow_2_is_pow2 al' Hal') | unfold NULL; lia | lia
      | rewrite add_small by lia; lia | rewrite add_small by lia; lia ].
  unfold bind at 1. rewrite Heq. cbn [bind memmove ret].
  set (off := aligned_offset (ar s2) al') in *.
  set (r := mem (ar s2) + off) in *.
  exists r. eexists. split; [reflexivity|]. cbn [ar heap].
  rewrite <- Hm2, <- Hc2.
  split; [unfold r; lia|]. split; [exact Hmod|]. split; [unfold r; lia|].
  split; [ | split].
  - intros i Hi.
    replace (N <? M) with true by (symmetry; apply Z.ltb_lt; lia).
    rewrite move_outside by lia. apply fill_inside. lia.
  - intros x Hx.
    rewrite move_outside by (destruct (N <? M) eqn:E;
      [apply Z.ltb_lt in E | apply Z.ltb_ge in E]; lia).
    apply fill_outside. exact Hx.
  - f_equal; unfold r; lia.
Qed.

Lemma relocation_layout_witness :
  exists P s1 s2 r s3,
    arena_aligned_alloc 16 8
      (mkState (mkArena 4096 64 0 0) (fun _ => 255) 0 []) = Some (P, s1) /\
    intervened s1 s2 /\
    arena_aligned_realloc 16 P 8 12 s2 = Some (r, s3) /\
    P + 8 <= r /\ heap s3 (r + 10) = 0 /\ heap s3 (P + 0) = 7.
Proof.
  set (s0 := mkState (mkArena 4096 64 0 0) (fun _ => 255) 0 []).
  eassert (E0 : arena_aligned_alloc 16 8 s0 = Some (4096, _))
    by (cbv -[fill move poke]; reflexivity).
  match type of E0 with _ = Some (_, ?x) => set (s1 := x) in * end.
  set (s1' := mkState (ar s1) (poke (heap s1) 4096 7) (errno s1) (calls s1)).
  eassert (E1 : arena_aligned_alloc 16 8 s1' = Some (_, _))
    by (cbv -[fill move poke]; reflexivity).
  match type of E1 with _ = Some (_, ?x) => set (s2 := x) in * end.
  assert (Hiv : intervened s1 s2).
  { apply (iv_caller_first s1 s1' s2); [reflexivity|].
    apply iv_alloc.
    refine (AllocStep s1' 16 8 _ s2 is_pow2_16 (is_word_small 8 _) _ E1).
    - lia.
    - unfold fits. vm_compute. discriminate. }
  assert (Hwf : arena_wf (ar s0)).
  { constructor; cbn; rewrite ?modulus_eq; unfold offsets_ok; cbn; lia. }
  destruct (relocation_layout s0 16 8 4096 s1 s2 16 12 Hwf is_pow2_16
              is_pow2_16 (is_word_small 8 ltac:(lia)) ltac:(lia)
              (is_word_small 12 ltac:(lia)))
    as (r & s3 & Hrun & Hle & _ & _ & Hzero & Hframe & _).
  - unfold fits. vm_compute. discriminate.
  - exact E0.
  - exact Hiv.
  - unfold fits. vm_compute. discriminate.
  - exists 4096, s1, s2, r, s3.
    split; [exact E0|]. split; [exact Hiv|]. split; [exact Hrun|].
    split; [exact Hle|]. split; [apply Hzero; lia|].
    rewrite Hframe by lia. reflexivity.
Defined.

(** * The duplication helpers *)

Lemma strlen_scan_found h p n : forall fuel k,
  (forall i, k <= i < n -> h (p + i) <> 0) -> h (p + n) = 0 ->
  k <= n -> (Z.to_nat (n - k) < fuel)%nat ->
  strlen_scan fuel h p k = Some n.
Proof.
  induction fuel as [ | f IH]; intros k Hnz Hz Hk Hfuel; [lia|].
  cbn [strlen_scan].
  destruct (Z.eq_dec k n) as [-> | Hne].
  - rewrite Hz. reflexivity.
  - replace (h (p + k) =? 0) with false
      by (symmetry; apply Z.eqb_neq; apply Hnz; lia).
    apply IH; try assumption; try lia.
    intros i Hi. apply Hnz. lia.
Qed.

Lemma strnlen_scan_found h p maxlen len : forall fuel k,
  (forall i, k <= i < len -> h (p + i) <> 0) ->
  len <= maxlen -> len = maxlen \/ h (p + len) = 0 ->
  k <= len -> (Z.to_nat (len - k) < fuel)%nat ->
  strnlen_scan fuel h p maxlen k = Some len.
Proof.
  induction fuel as [ | f IH]; intros k Hnz Hle Hend Hk Hfuel; [lia|].
  cbn [strnlen_scan].
  destruct (Z.eq_dec k len) as [-> | Hne].
  - destruct Hend as [-> | Hz].
    + rewrite Z.leb_refl. reflexivity.
    + rewrite Hz. rewrite orb_true_r. reflexivity.
  - replace (maxlen <=? k) with false by (symmetry; apply Z.leb_gt; lia).
    replace (h (p + k) =? 0) with false
      by (symmetry; apply Z.eqb_neq; apply Hnz; lia).
    cbn [orb]. apply IH; try assumption; try lia.
    intros i Hi. apply Hnz. lia.
Qed.

(** The default alignment is a power of two, so the helpers never abort on
    it. *)
Lemma alloc_default_fits s size :
  arena_wf (ar s) -> Word.is_word size ->
  fits (ar s) ARENA_DEFAULT_ALIGNMENT size ->
  let dup := mem (ar s) + aligned_offset (ar s) ARENA_DEFAULT_ALIGNMENT in
  mem (ar s) + curr_offset (ar s) <= dup /\
  dup + size <= mem (ar s) + cap (ar s) /\ dup mod 16 = 0 /\ 0 < dup /\
  arena_alloc size s =
  Some (dup, mkState (mkArena (mem (ar s)) (cap (ar s))
                              (dup - mem (ar s) + size) (dup - mem (ar s)))
                     (fill (heap s) dup 0 size) (errno s)
                     (calls s ++ [Memset dup 0 size])).
Proof.
  intros Hwf Hsz Hfit. cbv zeta.
  change ARENA_DEFAULT_ALIGNMENT with 16 in *.
  destruct (alloc_fits s 16 size Hwf is_pow2_16 Hsz Hfit) as [Hge Heq].
  pose proof Hwf as [Hm Hb Hc (Hp & Hpc & Hcc)].
  pose proof (aligned_offset_nonneg (ar s) 16) as Hn.
  unfold fits in Hfit. unfold Word.is_word in Hsz.
  destruct (aligned_offset_cases (ar s) 16 Hwf is_pow2_16)
    as [Hw | (_ & _ & Hmod & _)]; [lia|].
  split; [lia|]. split; [lia|]. split; [exact Hmod|]. split; [lia|].
  unfold arena_alloc. change ARENA_DEFAULT_ALIGNMENT with 16. rewrite Heq.
  repeat f_equal; lia.
Qed.

(** [arena_memdup] of a source that lies outside the free part of the arena
    (below the cursor, or beyond the block): the result is a fresh
    16-aligned block holding the [size] bytes of the source, and nothing
    outside that block is written. *)
Theorem memdup_copies s src size :
  arena_wf (ar s) -> Word.is_word size ->
  fits (ar s) ARENA_DEFAULT_ALIGNMENT size ->
  src + size <= mem (ar s) + curr_offset (ar s) \/
  mem (ar s) + cap (ar s) <= src ->
  exists dup s',
    arena_memdup src size s = Some (dup, s') /\
    dup <> NULL /\ dup mod 16 = 0 /\
    mem (ar s) + curr_offset (ar s) <= dup /\
    dup + size <= mem (ar s) + cap (ar s) /\
    (forall i, 0 <= i < size -> heap s' (dup + i) = heap s (src + i)) /\
    (forall x, ~ (dup <= x < dup + size) -> heap s' x = heap s x).
Proof.
  intros Hwf Hsz Hfit Hsrc.
  destruct (alloc_default_fits s size Hwf Hsz Hfit)
    as (Hlo & Hhi & Hmod & Hpos & Heq).
  set (dup := mem (ar s) + aligned_offset (ar s) ARENA_DEFAULT_ALIGNMENT) in *.
  unfold arena_memdup, bind at 1. rewrite Heq.
  replace (negb (dup =? NULL)) with true
    by (symmetry; apply negb_true_iff, Z.eqb_neq; unfold NULL; lia).
  exists dup. eexists. split; [reflexivity|]. cbn [heap].
  split; [unfold NULL; lia|]. split; [exact Hmod|].
  split; [exact Hlo|]. split; [exact Hhi|]. split.
  - intros i Hi. rewrite move_inside by exact Hi. apply fill_outside. lia.
  - intros x Hx. rewrite move_outside by exact Hx. apply fill_outside. exact Hx.
Qed.

Lemma memdup_copies_witness :
  exists dup s',
    arena_memdup 4096 8
      (mkState (mkArena 4096 64 8 0) (poke (fun _ => 255) 4099 7) 0 [])
      = Some (dup, s') /\
    dup = 4112 /\ heap s' (dup + 3) = 7 /\ heap s' 4099 = 7.
Proof.
  set (s := mkState (mkArena 4096 64 8 0) (poke (fun _ => 255) 4099 7) 0 []).
  destruct (memdup_copies s 4096 8)
    as (dup & s' & Hrun & _ & _ & _ & _ & Hcopy & Hframe).
  - constructor; cbn; rewrite ?modulus_eq; unfold offsets_ok; cbn; lia.
  - apply is_word_small. lia.
  - unfold fits. vm_compute. discriminate.
  - left. cbn. lia.
  - assert (Hd : dup = 4112).
    { assert (E : exists x, arena_memdup 4096 8 s = Some (4112, x))
        by (eexists; cbv -[fill move poke]; reflexivity).
      destruct E as [x E]. congruence. }
    exists dup, s'. split; [exact Hrun|]. split; [exact Hd|]. split.
    + rewrite Hcopy by lia. reflexivity.
    + rewrite Hframe by lia. reflexivity.
Defined.

(** [arena_strdup] of a string that lies outside the free part of the
    arena: the result is a fresh 16-aligned block of [n + 1] bytes holding
    the [n] bytes of the source and its terminator, so that it is itself a
    string of length [n]; apart from that block the call writes one byte,
    the one that follows the block. *)
Theorem strdup_copies fuel s src n :
  arena_wf (ar s) -> 0 <= n -> n + 1 < Word.modulus ->
  c_string (heap s) src n -> (Z.to_nat n < fuel)%nat ->
  fits (ar s) ARENA_DEFAULT_ALIGNMENT (n + 1) ->
  src + n + 1 <= mem (ar s) + curr_offset (ar s) \/
  mem (ar s) + cap (ar s) <= src ->
  exists dup s',
    arena_strdup fuel src s = Some (dup, s') /\
    dup <> NULL /\ dup mod 16 = 0 /\
    dup + (n + 1) <= mem (ar s) + cap (ar s) /\
    (forall i, 0 <= i <= n -> heap s' (dup + i) = heap s (src + i)) /\
    c_string (heap s') dup n /\
    (forall x, ~ (dup <= x <= dup + (n + 1)) -> heap s' x = heap s x).
Proof.
  intros Hwf Hn Hword [Hnz Hz] Hfuel Hfit Hsrc.
  assert (Hlen : Word.is_word (n + 1)) by (unfold Word.is_word; lia).
  destruct (alloc_default_fits s (n + 1) Hwf Hlen Hfit)
    as (Hlo & Hhi & Hmod & Hpos & Heq).
  set (dup := mem (ar s) + aligned_offset (ar s) ARENA_DEFAULT_ALIGNMENT) in *.
  pose proof Hwf as [Hm Hb Hc _].
  unfold arena_strdup, bind at 1, strlen.
  rewrite (strlen_scan_found (heap s) src n fuel 0) by (try assumption; try lia;
    replace (n - 0) with n by lia; exact Hfuel).
  rewrite (add_small n 1) by lia.
  unfold bind at 1. rewrite Heq.
  replace (negb (dup =? NULL)) with true
    by (symmetry; apply negb_true_iff, Z.eqb_neq; unfold NULL; lia).
  rewrite (add_small dup (n + 1)) by lia.
  exists dup. eexists. split; [reflexivity|]. cbn [heap].
  assert (Hcopy : forall i, 0 <= i <= n ->
            poke (move (fill (heap s) dup 0 (n + 1)) dup src (n + 1))
                 (dup + (n + 1)) 0 (dup + i) = heap s (src + i)).
  { intros i Hi. rewrite poke_other by lia.
    rewrite move_inside by lia. apply fill_outside. lia. }
  split; [unfold NULL; lia|]. split; [exact Hmod|]. split; [exact Hhi|].
  split; [exact Hcopy|]. split; [split|].
  - intros i Hi. rewrite Hcopy by lia. apply Hnz. exact Hi.
  - rewrite Hcopy by lia. exact Hz.
  - intros x Hx. rewrite poke_other by lia.
    rewrite move_outside by lia. apply fill_outside. lia.
Qed.

Lemma strdup_copies_witness :
  exists dup s',
    arena_strdup 20 100
      (mkState (mkArena 4096 64 0 0) (poke (fun _ => 65) 103 0) 0 [])
      = Some (dup, s') /\
    heap s' (dup + 0) = 65 /\ heap s' (dup + 3) = 0 /\
    c_string (heap s') dup 3.
Proof.
  set (s := mkState (mkArena 4096 64 0 0) (poke (fun _ => 65) 103 0) 0 []).
  destruct (strdup_copies 20 s 100 3)
    as (dup & s' & Hrun & _ & _ & _ & Hcopy & Hstr & _).
  - constructor; cbn; rewrite ?modulus_eq; unfold offsets_ok; cbn; lia.
  - lia.
  - rewrite modulus_eq. lia.
  - split.
    + intros i Hi. cbn [s heap]. rewrite poke_other by lia. discriminate.
    + reflexivity.
  - cbn. lia.
  - unfold fits. vm_compute. discriminate.
  - left. cbn. lia.
  - exists dup, s'. split; [exact Hrun|].
    split; [rewrite Hcopy by lia; reflexivity|].
    split; [rewrite Hcopy by lia; reflexivity | exact Hstr].
Defined.

(** [arena_strndup] of a source that lies outside the free part of the
    arena: the result is a fresh 16-aligned block of [len + 1] bytes, [len]
    being what [strnlen] finds; it holds the first [len] bytes of the source
    and a terminator, so that it is a string of length [len], and nothing
    outside that block is written. *)
Theorem strndup_copies fuel s src size len :
  arena_wf (ar s) -> 0 <= len -> len + 1 < Word.modulus ->
  c_prefix (heap s) src size len -> (Z.to_nat len < fuel)%nat ->
  fits (ar s) ARENA_DEFAULT_ALIGNMENT (len + 1) ->
  src + len <= mem (ar s) + curr_offset (ar s) \/
  mem (ar s) + cap (ar s) <= src ->
  exists dup s',
    arena_strndup fuel src size s = Some (dup, s') /\
    dup <> NULL /\ dup mod 16 = 0 /\
    dup + (len + 1) <= mem (ar s) + cap (ar s) /\
    (forall i, 0 <= i < len -> heap s' (dup + i) = heap s (src + i)) /\
    c_string (heap s') dup len /\
    (forall x, ~ (dup <= x < dup + (len + 1)) -> heap s' x = heap s x).
Proof.
  intros Hwf Hn Hword (Hnz & Hle & Hend) Hfuel Hfit Hsrc.
  assert (Hlen : Word.is_word (len + 1)) by (unfold Word.is_word; lia).
  destruct (alloc_default_fits s (len + 1) Hwf Hlen Hfit)
    as (Hlo & Hhi & Hmod & Hpos & Heq).
  set (dup := mem (ar s) + aligned_offset (ar s) ARENA_DEFAULT_ALIGNMENT) in *.
  pose proof Hwf as [Hm Hb Hc _].
  unfold arena_strndup, bind at 1, strnlen.
  rewrite (strnlen_scan_found (heap s) src size len fuel 0)
    by (try assumption; try lia; replace (len - 0) with len by lia; exact Hfuel).
  rewrite (add_small len 1) by lia.
  unfold bind at 1. rewrite Heq.
  replace (negb (dup =? NULL)) with true
    by (symmetry; apply negb_true_iff, Z.eqb_neq; unfold NULL; lia).
  rewrite (add_small dup len) by lia.
  exists dup. eexists. split; [reflexivity|]. cbn [heap].
  assert (Hcopy : forall i, 0 <= i < len ->
            poke (move (fill (heap s) dup 0 (len + 1)) dup src len)
                 (dup + len) 0 (dup + i) = heap s (src + i)).
  { intros i Hi. rewrite poke_other by lia.
    rewrite move_inside by lia. apply fill_outside. lia. }
  split; [unfold NULL; lia|]. split; [exact Hmod|]. split; [exact Hhi|].
  split; [exact Hcopy|]. split; [split|].
  - intros i Hi. rewrite Hcopy by lia. apply Hnz. exact Hi.
  - apply poke_same.
  - intros x Hx. rewrite poke_other by lia.
    rewrite move_outside by lia. apply fill_outside. lia.
Qed.

Lemma strndup_copies_witness :
  exists dup s',
    arena_strndup 20 100 2
      (mkState (mkArena 4096 64 0 0) (poke (fun _ => 65) 103 0) 0 [])
      = Some (dup, s') /\
    heap s' (dup + 1) = 65 /\ c_string (heap s') dup 2.
Proof.
  set (s := mkState (mkArena 4096 64 0 0) (poke (fun _ => 65) 103 0) 0 []).
  destruct (strndup_copies 20 s 100 2 2)
    as (dup & s' & Hrun & _ & _ & _ & Hcopy & Hstr & _).
  - constructor; cbn; rewrite ?modulus_eq; unfold offsets_ok; cbn; lia.
  - lia.
  - rewrite modulus_eq. lia.
  - split; [ | split; [lia | left; reflexivity]].
    intros i Hi. cbn [s heap]. rewrite poke_other by lia. discriminate.
  - cbn. lia.
  - unfold fits. vm_compute. discriminate.
  - left. cbn. lia.
  - exists dup, s'. split; [exact Hrun|].
    split; [rewrite Hcopy by lia; reflexivity | exact Hstr].
Defined.

(** * Formatted allocation *)

Lemma wrap_small_word z : Word.is_word z -> Word.wrap z = z.
Proof. intros H. apply Z.mod_small. exact H. Qed.

Lemma store_bytes_spec l : forall p s,
  exists s',
    store_bytes p l s = Some (tt, s') /\
    ar s' = ar s /\ errno s' = errno s /\
    (forall i, 0 <= i < Z.of_nat (length l) ->
               heap s' (p + i) = nth (Z.to_nat i) l 0) /\
    (forall x, ~ (p <= x < p + Z.of_nat (length l)) -> heap s' x = heap s x).
Proof.
  induction l as [ | b rest IH]; intros p s.
  - exists s. cbn [store_bytes length]. split; [reflexivity|].
    repeat split; try reflexivity. intros i Hi. cbn in Hi. lia.
  - cbn [store_bytes]. unfold bind at 1, store at 1.
    set (s1 := mkState (ar s) (poke (heap s) p b) (errno s) (calls s ++ [Store p b])).
    destruct (IH (p + 1) s1) as (s' & Hrun & Ha & He & Hin & Hout).
    exists s'. split; [exact Hrun|].
    split; [exact Ha|]. split; [exact He|].
    cbn [length]. rewrite Nat2Z.inj_succ. split.
    + intros i Hi. destruct (Z.eq_dec i 0) as [-> | Hne].
      * rewrite Z.add_0_r. rewrite Hout by lia. cbn. apply poke_same.
      * replace (p + i) with (p + 1 + (i - 1)) by lia.
        rewrite Hin by lia.
        replace (Z.to_nat i) with (S (Z.to_nat (i - 1))) by lia. reflexivity.
    + intros x Hx. rewrite Hout by lia. cbn [s1 heap].
      apply poke_other. lia.
Qed.

(** When the formatting fails [arena_asprintf] returns [NULL] and has
    touched neither the arena nor the memory; [errno] is what [vsnprintf]
    left there.  When the allocation fails it returns [NULL] with
    [errno = ENOMEM], the arena and the memory again as they were. *)
Theorem asprintf_failures s fmt :
  (forall e,
      fmt (heap s) = Failed e ->
      arena_asprintf fmt s = Some (NULL, mkState (ar s) (heap s) e (calls s))) /\
  (forall bytes,
      fmt (heap s) = Rendered bytes ->
      Z.of_nat (length bytes) < INT_MAX ->
      cap (ar s) < aligned_offset (ar s) ARENA_DEFAULT_ALIGNMENT
                   +w (Z.of_nat (length bytes) + 1) ->
      arena_asprintf fmt s =
      Some (NULL, mkState (ar s) (heap s) ENOMEM (calls s))).
Proof.
  split.
  - intros e Hfmt. unfold arena_asprintf, bind at 1, vsnprintf.
    rewrite Hfmt. reflexivity.
  - intros bytes Hfmt Hlen Hfail.
    unfold arena_asprintf, bind at 1, vsnprintf. rewrite Hfmt. cbv zeta.
    replace (INT_MAX <? Z.of_nat (length bytes)) with false
      by (symmetry; apply Z.ltb_ge; lia).
    cbn [Z.eqb ret].
    replace (Z.of_nat (length bytes) <? 0) with false
      by (symmetry; apply Z.ltb_ge; lia).
    unfold bind at 1, int_add.
    replace ((Z.of_nat (length bytes) + 1 <=? INT_MAX)
             && (- INT_MAX - 1 <=? Z.of_nat (length bytes) + 1)) with true
      by (symmetry; apply andb_true_iff; split; apply Z.leb_le;
          unfold INT_MAX in *; lia).
    cbn [ret].
    rewrite wrap_small_word by (unfold Word.is_word, INT_MAX in *;
                                rewrite modulus_eq; lia).
    unfold bind at 1, arena_alloc. change ARENA_DEFAULT_ALIGNMENT with 16 in *.
    rewrite (alloc_eq s 16 _ (pow_2_is_pow2 16 is_pow2_16)). cbv zeta.
    replace (_ <=? _) with false by (symmetry; apply Z.leb_gt; exact Hfail).
    reflexivity.
Qed.

Lemma asprintf_failures_witness :
  arena_asprintf (fun _ => Failed 84)
    (mkState (mkArena 4096 64 21 16) (fun _ => 255) 0 [])
  = Some (NULL, mkState (mkArena 4096 64 21 16) (fun _ => 255) 84 []) /\
  arena_asprintf (fun h => Rendered [h 4100; 105])
    (mkState (mkArena 4096 33 21 16) (fun _ => 255) 0 [])
  = Some (NULL, mkState (mkArena 4096 33 21 16) (fun _ => 255) ENOMEM []).
Proof.
  split.
  - destruct (asprintf_failures
                (mkState (mkArena 4096 64 21 16) (fun _ => 255) 0 [])
                (fun _ => Failed 84)) as [H _].
    apply (H 84). reflexivity.
  - destruct (asprintf_failures
                (mkState (mkArena 4096 33 21 16) (fun _ => 255) 0 [])
                (fun h => Rendered [h 4100; 105])) as [_ H].
    apply (H [255; 105]).
    + reflexivity.
    + vm_compute. reflexivity.
    + vm_compute. reflexivity.
Defined.

(** [arena_asprintf] on a text that fits, rendered from arguments that lie
    outside the free part of the arena (the rendering is the same whatever
    the free part holds): the result is a fresh 16-aligned block of
    [len + 1] bytes holding the rendered text and a terminator, and nothing
    outside that block is written.  (The second rendering is done after the
    fresh block was zeroed, hence the condition.) *)
Theorem asprintf_renders s fmt bytes :
  arena_wf (ar s) ->
  fmt (heap s) = Rendered bytes ->
  (forall h,
      (forall x, ~ (mem (ar s) + curr_offset (ar s) <= x
                    < mem (ar s) + cap (ar s)) -> h x = heap s x) ->
      fmt h = fmt (heap s)) ->
  let len := Z.of_nat (length bytes) in
  len < INT_MAX ->
  fits (ar s) ARENA_DEFAULT_ALIGNMENT (len + 1) ->
  exists out s',
    arena_asprintf fmt s = Some (out, s') /\
    out <> NULL /\ out mod 16 = 0 /\
    mem (ar s) + curr_offset (ar s) <= out /\
    out + (len + 1) <= mem (ar s) + cap (ar s) /\
    (forall i, 0 <= i < len -> heap s' (out + i) = nth (Z.to_nat i) bytes 0) /\
    heap s' (out + len) = 0 /\
    (forall x, ~ (out <= x < out + (len + 1)) -> heap s' x = heap s x) /\
    ar s' = mkArena (mem (ar s)) (cap (ar s))
                    (out - mem (ar s) + (len + 1)) (out - mem (ar s)).
Proof.
  intros Hwf Hfmt Hstable len Hlen Hfit.
  assert (Hlen0 : 0 <= len) by (unfold len; lia).
  assert (Hword : Word.is_word (len + 1))
    by (unfold Word.is_word, INT_MAX in *; rewrite modulus_eq; lia).
  destruct (alloc_default_fits s (len + 1) Hwf Hword Hfit)
    as (Hlo & Hhi & Hmod & Hpos & Heq).
  set (out := mem (ar s) + aligned_offset (ar s) ARENA_DEFAULT_ALIGNMENT) in *.
  unfold arena_asprintf, bind at 1, vsnprintf at 1. rewrite Hfmt. cbv zeta.
  fold len.
  replace (INT_MAX <? len) with false by (symmetry; apply Z.ltb_ge; lia).
  cbn [Z.eqb ret].
  replace (len <? 0) with false by (symmetry; apply Z.ltb_ge; lia).
  unfold bind at 1, int_add.
  replace ((len + 1 <=? INT_MAX) && (- INT_MAX - 1 <=? len + 1)) with true
    by (symmetry; apply andb_true_iff; split; apply Z.leb_le;
        unfold INT_MAX in *; lia).
  cbn [ret]. rewrite (wrap_small_word (len + 1) Hword).
  unfold bind at 1. rewrite Heq.
  replace (out =? NULL) with false
    by (symmetry; apply Z.eqb_neq; unfold NULL; lia).
  unfold bind at 1. cbn [ret].
  unfold bind at 1. unfold vsnprintf. cbn [heap].
  rewrite (Hstable (fill (heap s) out 0 (len + 1)))
    by (intros x Hx; apply fill_outside; lia).
  rewrite Hfmt. cbv zeta. fold len.
  replace (INT_MAX <? len) with false by (symmetry; apply Z.ltb_ge; lia).
  rewrite (wrap_small_word (len + 1) Hword).
  replace (len + 1 =? 0) with false by (symmetry; apply Z.eqb_neq; lia).
  replace (firstn (Z.to_nat (len + 1 - 1)) bytes) with bytes
    by (replace (Z.to_nat (len + 1 - 1)) with (length bytes) by (unfold len; lia);
        symmetry; apply firstn_all).
  unfold bind at 1.
  match goal with
  | |- context [store_bytes out (bytes ++ [0]) ?st] =>
      destruct (store_bytes_spec (bytes ++ [0]) out st)
        as (s' & Hrun & Ha & _ & Hin & Hout)
  end.
  rewrite Hrun. cbn [ret].
  exists out, s'. split; [reflexivity|].
  rewrite length_app in Hin, Hout. cbn [length] in Hin, Hout.
  replace (Z.of_nat (length bytes + 1)) with (len + 1) in Hin, Hout
    by (unfold len; lia).
  cbn [heap ar] in *.
  split; [unfold NULL; lia|]. split; [exact Hmod|].
  split; [exact Hlo|]. split; [exact Hhi|]. split; [ | split; [ | split]].
  - intros i Hi. rewrite Hin by lia.
    apply app_nth1. unfold len in Hi. lia.
  - rewrite Hin by lia.
    rewrite app_nth2 by (unfold len; lia).
    replace (Z.to_nat len - length bytes)%nat with 0%nat by (unfold len; lia).
    reflexivity.
  - intros x Hx. rewrite Hout by exact Hx. apply fill_outside. exact Hx.
  - exact Ha.
Qed.

Lemma asprintf_renders_witness :
  exists out s',
    arena_asprintf (fun h => Rendered [h 4100; h 4101])
      (mkState (mkArena 4096 64 21 16)
               (poke (poke (fun _ => 255) 4100 104) 4101 105) 0 [])
      = Some (out, s') /\
    heap s' (out + 0) = 104 /\ heap s' (out + 1) = 105 /\
    heap s' (out + 2) = 0.
Proof.
  destruct (asprintf_renders
              (mkState (mkArena 4096 64 21 16)
                       (poke (poke (fun _ => 255) 4100 104) 4101 105) 0 [])
              (fun h => Rendered [h 4100; h 4101])
              [104; 105])
    as (out & s' & Hrun & _ & _ & _ & _ & Hin & Hend & _).
  - constructor; cbn; rewrite ?modulus_eq; unfold offsets_ok; cbn; lia.
  - reflexivity.
  - intros h Hh. cbn [ar mem cap curr_offset heap] in Hh.
    rewrite (Hh 4100) by lia. rewrite (Hh 4101) by lia. reflexivity.
  - vm_compute. reflexivity.
  - unfold fits. vm_compute. discriminate.
  - exists out, s'. split; [exact Hrun|].
    split; [rewrite Hin by (cbn; lia); reflexivity|].
    split; [rewrite Hin by (cbn; lia); reflexivity | exact Hend].
Defined.

(** When the allocation fails, [arena_memdup], [arena_strdup] and
    [arena_strndup] return [NULL] with [errno = ENOMEM] and copy nothing. *)
Theorem dup_failure fuel s src :
  (forall size,
      cap (ar s) < aligned_offset (ar s) ARENA_DEFAULT_ALIGNMENT +w size ->
      arena_memdup src size s =
      Some (NULL, mkState (ar s) (heap s) ENOMEM (calls s))) /\
  (forall n,
      0 <= n -> c_string (heap s) src n -> (Z.to_nat n < fuel)%nat ->
      cap (ar s) < aligned_offset (ar s) ARENA_DEFAULT_ALIGNMENT +w (n +w 1) ->
      arena_strdup fuel src s =
      Some (NULL, mkState (ar s) (heap s) ENOMEM (calls s))) /\
  (forall size len,
      0 <= len -> c_prefix (heap s) src size len -> (Z.to_nat len < fuel)%nat ->
      cap (ar s) < aligned_offset (ar s) ARENA_DEFAULT_ALIGNMENT +w (len +w 1) ->
      arena_strndup fuel src size s =
      Some (NULL, mkState (ar s) (heap s) ENOMEM (calls s))).
Proof.
  assert (Halloc : forall size,
            cap (ar s) < aligned_offset (ar s) ARENA_DEFAULT_ALIGNMENT +w size ->
            arena_alloc size s =
            Some (NULL, mkState (ar s) (heap s) ENOMEM (calls s))).
  { intros size Hfail. unfold arena_alloc.
    change ARENA_DEFAULT_ALIGNMENT with 16 in *.
    rewrite (alloc_eq s 16 _ (pow_2_is_pow2 16 is_pow2_16)). cbv zeta.
    replace (_ <=? _) with false by (symmetry; apply Z.leb_gt; exact Hfail).
    reflexivity. }
  split; [ | split].
  - intros size Hfail. unfold arena_memdup, bind at 1.
    rewrite (Halloc size Hfail). reflexivity.
  - intros n Hn [Hnz Hz] Hfuel Hfail.
    unfold arena_strdup, bind at 1, strlen.
    rewrite (strlen_scan_found (heap s) src n fuel 0)
      by (try assumption; try lia; replace (n - 0) with n by lia; exact Hfuel).
    unfold bind at 1. rewrite (Halloc _ Hfail). reflexivity.
  - intros size len Hn (Hnz & Hle & Hend) Hfuel Hfail.
    unfold arena_strndup, bind at 1, strnlen.
    rewrite (strnlen_scan_found (heap s) src size len fuel 0)
      by (try assumption; try lia; replace (len - 0) with len by lia; exact Hfuel).
    unfold bind at 1. rewrite (Halloc _ Hfail). reflexivity.
Qed.

Lemma dup_failure_witness :
  arena_memdup 100 50
    (mkState (mkArena 4096 35 21 16) (poke (fun _ => 65) 103 0) 0 [])
  = Some (NULL, mkState (mkArena 4096 35 21 16) (poke (fun _ => 65) 103 0)
                        ENOMEM []) /\
  arena_strdup 20 100
    (mkState (mkArena 4096 35 21 16) (poke (fun _ => 65) 103 0) 0 [])
  = Some (NULL, mkState (mkArena 4096 35 21 16) (poke (fun _ => 65) 103 0)
                        ENOMEM []) /\
  arena_strndup 20 100 3
    (mkState (mkArena 4096 35 21 16) (poke (fun _ => 65) 103 0) 0 [])
  = Some (NULL, mkState (mkArena 4096 35 21 16) (poke (fun _ => 65) 103 0)
                        ENOMEM []).
Proof.
  set (s := mkState (mkArena 4096 35 21 16) (poke (fun _ => 65) 103 0) 0 []).
  destruct (dup_failure 20 s 100) as (H1 & H2 & H3).
  assert (Hnz : forall i, 0 <= i < 3 -> heap s (100 + i) <> 0).
  { intros i Hi. cbn [s heap]. rewrite poke_other by lia. discriminate. }
  split; [ | split].
  - apply H1. vm_compute. reflexivity.
  - apply (H2 3); [lia | split; [exact Hnz | reflexivity] | cbn; lia
                   | vm_compute; reflexivity].
  - apply (H3 3 3); [lia | split; [exact Hnz | split; [lia | left; reflexivity]]
                     | cbn; lia | vm_compute; reflexivity].
Defined.

(** * The string builder *)

Module SBProps.

Import SB.

Lemma sb_store_bytes_spec l : forall p s,
  exists s',
    store_bytes p l s = Some (tt, s') /\
    sb s' = sb s /\ blocks s' = blocks s /\
    (forall i, 0 <= i < Z.of_nat (length l) ->
               heap s' (p + i) = nth (Z.to_nat i) l 0) /\
    (forall x, ~ (p <= x < p + Z.of_nat (length l)) -> heap s' x = heap s x).
Proof.
  induction l as [ | b rest IH]; intros p s.
  - exists s. cbn [store_bytes length]. split; [reflexivity|].
    repeat split; try reflexivity. intros i Hi. cbn in Hi. lia.
  - cbn [store_bytes]. unfold bind at 1, store at 1.
    set (s1 := mkSt (sb s) (poke (heap s) p b) (blocks s)).
    destruct (IH (p + 1) s1) as (s' & Hrun & Ha & He & Hin & Hout).
    exists s'. split; [exact Hrun|].
    split; [exact Ha|]. split; [exact He|].
    cbn [length]. rewrite Nat2Z.inj_succ. split.
    + intros i Hi. destruct (Z.eq_dec i 0) as [-> | Hne].
      * rewrite Z.add_0_r. rewrite Hout by lia. cbn. apply poke_same.
      * replace (p + i) with (p + 1 + (i - 1)) by lia.
        rewrite Hin by lia.
        replace (Z.to_nat i) with (S (Z.to_nat (i - 1))) by lia. reflexivity.
    + intros x Hx. rewrite Hout by lia. cbn [s1 heap].
      apply poke_other. lia.
Qed.

Lemma vsnprintf_measure bytes s :
  Z.of_nat (length bytes) <= INT_MAX ->
  vsnprintf NULL 0 (Some bytes) s = Some (Z.of_nat (length bytes), s).
Proof.
  intros Hlen. unfold vsnprintf.
  replace (INT_MAX <? _) with false by (symmetry; apply Z.ltb_ge; lia).
  reflexivity.
Qed.

Lemma vsnprintf_render bytes dst s :
  let n := Z.of_nat (length bytes) in
  n <= INT_MAX ->
  exists s',
    vsnprintf dst (n + 1) (Some bytes) s = Some (n, s') /\
    sb s' = sb s /\ blocks s' = blocks s /\
    (forall i, 0 <= i < n -> heap s' (dst + i) = nth (Z.to_nat i) bytes 0) /\
    heap s' (dst + n) = 0 /\
    (forall x, ~ (dst <= x < dst + (n + 1)) -> heap s' x = heap s x).
Proof.
  intros n Hlen. unfold vsnprintf. fold n.
  replace (INT_MAX <? n) with false by (symmetry; apply Z.ltb_ge; lia).
  replace (n + 1 =? 0) with false by (symmetry; apply Z.eqb_neq; unfold n; lia).
  replace (firstn (Z.to_nat (n + 1 - 1)) bytes) with bytes
    by (replace (Z.to_nat (n + 1 - 1)) with (length bytes) by (unfold n; lia);
        symmetry; apply firstn_all).
  destruct (sb_store_bytes_spec (bytes ++ [0]) dst s)
    as (s' & Hrun & Hsb & Hbl & Hin & Hout).
  unfold bind. rewrite Hrun. exists s'. split; [reflexivity|].
  rewrite length_app in Hin, Hout. cbn [length] in Hin, Hout.
  replace (Z.of_nat (length bytes + 1)) with (n + 1) in Hin, Hout
    by (unfold n; lia).
  split; [exact Hsb|]. split; [exact Hbl|]. split; [ | split].
  - intros i Hi. rewrite Hin by lia. apply app_nth1. unfold n in Hi. lia.
  - rewrite Hin by (unfold n; lia).
    rewrite app_nth2 by (unfold n; lia).
    replace (Z.to_nat n - length bytes)%nat with 0%nat by (unfold n; lia).
    reflexivity.
  - exact Hout.
Qed.

(** [sb_init_cap] never tests what [malloc] answers.  With a block of
    [c >= 1] bytes the builder holds the empty text in a zeroed buffer; with
    [NULL] the [memset] of [c >= 1] bytes is done on the null pointer, which
    has no defined meaning: the call does not come back. *)
Theorem sb_init_cap_spec c s :
  (forall answer,
      1 <= c -> 0 < answer -> answer + c < Word.modulus ->
      exists s',
        sb_init_cap c answer s = Some (tt, s') /\
        holds s' [] /\ sb s' = mkSb c 0 answer /\
        (forall i, 0 <= i < c -> heap s' (answer + i) = 0) /\
        (forall x, ~ (answer <= x < answer + c) -> heap s' x = heap s x)) /\
  (1 <= c -> sb_init_cap c NULL s = None).
Proof.
  split.
  - intros answer Hc Ha Hend.
    assert (Hneq : (answer =? NULL) = false)
      by (apply Z.eqb_neq; unfold NULL; lia).
    cbv [sb_init_cap bind malloc set_buf get_sb put_sb memset set_cap set_len ret].
    rewrite Hneq. cbn [sb heap blocks cap len buf]. rewrite Hneq. cbn [andb].
    eexists. split; [reflexivity|]. cbn [sb heap blocks cap len buf].
    split; [ | split; [reflexivity | split]].
    + constructor; cbn [sb heap blocks cap len buf length]; try lia.
      * unfold set_block. rewrite Z.eqb_refl. reflexivity.
      * apply fill_inside. lia.
    + intros i Hi. apply fill_inside. lia.
    + intros x Hx. apply fill_outside. exact Hx.
  - intros Hc.
    cbv [sb_init_cap bind malloc set_buf get_sb put_sb memset set_cap set_len ret].
    change (NULL =? NULL) with true. cbn [sb heap blocks cap len buf andb].
    change (NULL =? NULL) with true. cbn [andb].
    replace (0 <? c) with true by (symmetry; apply Z.ltb_lt; lia).
    reflexivity.
Qed.

Lemma sb_init_cap_spec_witness :
  (exists s',
      sb_init_cap 32 4096 (mkSt (mkSb 7 7 7) (fun _ => 255) (fun _ => None))
        = Some (tt, s') /\
      holds s' [] /\ sb s' = mkSb 32 0 4096) /\
  sb_init_cap 32 NULL (mkSt (mkSb 7 7 7) (fun _ => 255) (fun _ => None)) = None.
Proof.
  destruct (sb_init_cap_spec 32 (mkSt (mkSb 7 7 7) (fun _ => 255) (fun _ => None)))
    as [H Hnull].
  split.
  - destruct (H 4096) as (s' & Hrun & Hh & Hsb & _).
    + lia.
    + lia.
    + rewrite modulus_eq. lia.
    + exists s'. split; [exact Hrun|]. split; [exact Hh | exact Hsb].
  - apply Hnull. lia.
Defined.

(** The state [sb_grow] reaches when it extends the buffer. *)
Lemma sb_grow_eq s size answer :
  holds_block s -> cap (sb s) <= size ->
  0 < cap (sb s) + size < Word.modulus ->
  0 < answer -> answer + (cap (sb s) + size) < Word.modulus ->
  sb_grow size answer s =
  Some (true,
        mkSt (mkSb (cap (sb s) + size) (len (sb s)) answer)
             (fill (move (heap s) answer (buf (sb s)) (cap (sb s)))
                   (answer + len (sb s)) 0 (cap (sb s) + size - len (sb s)))
             (set_block (set_block (blocks s) (buf (sb s)) None)
                        answer (Some (cap (sb s) + size)))).
Proof.
  intros (Hlen0 & Hroom & Hbuf & Hblock) Hsize Hsum Ha Hend.
  unfold sb_grow, bind at 1, get_sb.
  replace (size <? cap (sb s)) with false by (symmetry; apply Z.ltb_ge; lia).
  rewrite (add_small (cap (sb s)) size) by lia.
  unfold bind at 1, realloc.
  replace (buf (sb s) =? NULL) with false
    by (symmetry; apply Z.eqb_neq; unfold NULL; lia).
  rewrite Hblock.
  replace (cap (sb s) + size =? 0) with false
    by (symmetry; apply Z.eqb_neq; lia).
  cbn [negb andb].
  assert (Hneq : (answer =? NULL) = false)
    by (apply Z.eqb_neq; unfold NULL; lia).
  rewrite Hneq.
  replace (Z.min (cap (sb s)) (cap (sb s) + size)) with (cap (sb s)) by lia.
  rewrite Hneq.
  rewrite (add_small answer (len (sb s))) by lia.
  rewrite (sub_small (cap (sb s) + size) (len (sb s))) by lia.
  unfold bind at 1, memset.
  replace (answer + len (sb s) =? NULL) with false
    by (symmetry; apply Z.eqb_neq; unfold NULL; lia).
  reflexivity.
Qed.

Lemma sb_grow_keeps s content size answer :
  holds s content -> cap (sb s) <= size ->
  cap (sb s) + size < Word.modulus ->
  0 < answer -> answer + (cap (sb s) + size) < Word.modulus ->
  exists s',
    sb_grow size answer s = Some (true, s') /\
    holds s' content /\
    sb s' = mkSb (cap (sb s) + size) (len (sb s)) answer /\
    (forall i, len (sb s) <= i < cap (sb s) + size -> heap s' (answer + i) = 0).
Proof.
  intros Hh Hsize Hsum Ha Hend.
  pose proof Hh as [Hlen Hroom Hcap Hbuf Hbend Hblock Hbytes Hterm].
  assert (Hb : holds_block s)
    by (unfold holds_block; split; [lia|]; split; [lia|]; split; assumption).
  rewrite (sb_grow_eq s size answer Hb Hsize ltac:(lia) Ha Hend).
  eexists. split; [reflexivity|]. cbn [sb heap blocks].
  split; [ | split; [reflexivity|]].
  - constructor; cbn [sb heap blocks cap len buf]; try lia.
    + unfold set_block. rewrite Z.eqb_refl. reflexivity.
    + intros i Hi. rewrite fill_outside by lia.
      rewrite move_inside by lia. apply Hbytes. exact Hi.
    + apply fill_inside. lia.
  - intros i Hi. apply fill_inside. lia.
Qed.

Lemma sb_grow_refused s size answer :
  size < cap (sb s) \/
  (answer = NULL /\ buffer_ok s /\ cap (sb s) +w size <> 0) ->
  sb_grow size answer s = Some (false, s).
Proof.
  intros Hcase.
  unfold sb_grow, bind at 1, get_sb.
  destruct (size <? cap (sb s)) eqn:E; [reflexivity|].
  destruct Hcase as [Hlt | (-> & Hok & Hnz)]; [apply Z.ltb_ge in E; lia|].
  apply Z.eqb_neq in Hnz.
  unfold bind, realloc. rewrite Hnz, andb_false_r.
  destruct Hok as [-> | [c Hc]].
  - reflexivity.
  - rewrite Hc. destruct (buf (sb s) =? NULL); reflexivity.
Qed.

(** A new capacity of 0 on a live buffer: [realloc] frees the buffer. *)
Lemma sb_grow_frees s size answer :
  cap (sb s) <= size -> cap (sb s) +w size = 0 ->
  buf (sb s) <> NULL -> (exists c, blocks s (buf (sb s)) = Some c) ->
  sb_grow size answer s =
  Some (false, mkSt (sb s) (heap s) (set_block (blocks s) (buf (sb s)) None)).
Proof.
  intros Hsize Hzero Hbuf [c Hc].
  unfold sb_grow, bind at 1, get_sb.
  replace (size <? cap (sb s)) with false by (symmetry; apply Z.ltb_ge; lia).
  unfold bind, realloc. rewrite Hzero.
  apply Z.eqb_neq in Hbuf. rewrite Hbuf, Hc. reflexivity.
Qed.

(** [sb_grow] refuses, leaving everything as it is, every increase smaller
    than the present capacity, and every increase to a capacity other than
    0 that [realloc] has no memory for (the buffer being [NULL] or a live
    block).  An increase that makes the capacity 0 (0 added to a capacity
    of 0, or a sum that wraps around to 0) is refused too, but [realloc]
    has then freed the buffer, and the builder keeps the pointer to the
    freed block.  An increase of at least the capacity that [realloc]
    grants moves the text to the new block, whose remaining bytes are
    zero. *)
Theorem sb_grow_spec s size answer :
  (size < cap (sb s) \/
   (answer = NULL /\ buffer_ok s /\ cap (sb s) +w size <> 0) ->
   sb_grow size answer s = Some (false, s)) /\
  (cap (sb s) <= size -> cap (sb s) +w size = 0 ->
   buf (sb s) <> NULL -> (exists c, blocks s (buf (sb s)) = Some c) ->
   exists s',
     sb_grow size answer s = Some (false, s') /\
     sb s' = sb s /\ blocks s' (buf (sb s)) = None /\
     (forall x, heap s' x = heap s x)) /\
  (forall content,
      holds s content -> cap (sb s) <= size ->
      cap (sb s) + size < Word.modulus ->
      0 < answer -> answer + (cap (sb s) + size) < Word.modulus ->
      exists s',
        sb_grow size answer s = Some (true, s') /\
        holds s' content /\
        sb s' = mkSb (cap (sb s) + size) (len (sb s)) answer /\
        (forall i, len (sb s) <= i < cap (sb s) + size ->
                   heap s' (answer + i) = 0)).
Proof.
  split; [ | split].
  - intros Hcase. exact (sb_grow_refused s size answer Hcase).
  - intros Hsize Hzero Hbuf Hlive.
    rewrite (sb_grow_frees s size answer Hsize Hzero Hbuf Hlive).
    eexists. split; [reflexivity|]. cbn [sb heap blocks].
    split; [reflexivity|].
    split; [unfold set_block; rewrite Z.eqb_refl; reflexivity|].
    reflexivity.
  - intros content Hh Hsize Hsum Ha Hend.
    exact (sb_grow_keeps s content size answer Hh Hsize Hsum Ha Hend).
Qed.

(** A builder of capacity 32 that holds the two bytes 104, 105 in a live
    block at 4096. *)
Lemma written_builder_holds :
  holds (mkSt (mkSb 32 2 4096)
              (poke (poke (fun _ => 0) 4096 104) 4097 105)
              (fun x => if x =? 4096 then Some 32 else None)) [104; 105].
Proof.
  constructor; cbn [sb heap blocks cap len buf length]; try lia;
    try reflexivity; rewrite ?modulus_eq; try lia.
  intros i Hi.
  assert (Hc : i = 0 \/ i = 1) by lia.
  destruct Hc as [-> | ->]; reflexivity.
Qed.

Lemma sb_grow_spec_witness :
  (exists s',
      sb_grow 32 8192
        (mkSt (mkSb 32 2 4096)
              (poke (poke (fun _ => 0) 4096 104) 4097 105)
              (fun x => if x =? 4096 then Some 32 else None)) = Some (true, s') /\
      holds s' [104; 105] /\ sb s' = mkSb 64 2 8192) /\
  (exists s',
      sb_grow 0 NULL
        (mkSt (mkSb 0 0 4096) (fun _ => 0)
              (fun x => if x =? 4096 then Some 0 else None)) = Some (false, s') /\
      sb s' = mkSb 0 0 4096 /\ blocks s' 4096 = None).
Proof.
  split.
  - destruct (sb_grow_spec
                (mkSt (mkSb 32 2 4096)
                      (poke (poke (fun _ => 0) 4096 104) 4097 105)
                      (fun x => if x =? 4096 then Some 32 else None))
                32 8192) as (_ & _ & H).
    destruct (H [104; 105] written_builder_holds) as (s' & Hrun & Hh & Hsb & _).
    + cbn. lia.
    + cbn [sb cap]. rewrite modulus_eq. lia.
    + lia.
    + cbn [sb cap]. rewrite modulus_eq. lia.
    + exists s'. split; [exact Hrun|]. split; [exact Hh | exact Hsb].
  - destruct (sb_grow_spec
                (mkSt (mkSb 0 0 4096) (fun _ => 0)
                      (fun x => if x =? 4096 then Some 0 else None))
                0 NULL) as (_ & H & _).
    destruct H as (s' & Hrun & Hsb & Hfreed & _).
    + cbn. lia.
    + reflexivity.
    + discriminate.
    + exists 0. reflexivity.
    + exists s'. split; [exact Hrun|]. split; [exact Hsb | exact Hfreed].
Defined.

(** [sb_vwritef] from the point where the buffer has room. *)
Lemma sb_vwritef_run s bytes answer s1 content :
  let n := Z.of_nat (length bytes) in
  n < INT_MAX ->
  0 <= len (sb s) -> len (sb s) + n + 1 < Word.modulus ->
  (if cap (sb s) <=? len (sb s) + n + 1
   then bind (int_mul n 2) (fun n2 => sb_grow (Word.wrap n2) answer)
   else ret true) s = Some (true, s1) ->
  holds s1 content ->
  len (sb s1) + n + 1 <= cap (sb s1) ->
  exists s',
    sb_vwritef (Some bytes) answer s = Some (n, s') /\
    holds s' (content ++ bytes) /\
    sb s' = mkSb (cap (sb s1)) (len (sb s1) + n) (buf (sb s1)) /\
    (forall x, ~ (buf (sb s1) + len (sb s1) <= x
                  < buf (sb s1) + len (sb s1) + (n + 1)) ->
               heap s' x = heap s1 x).
Proof.
  intros n Hn Hl0 Hsum Hgrown Hh Hroom.
  pose proof Hh as [Hlen Hroom1 Hcap Hbuf Hbend Hblock Hbytes Hterm].
  assert (Hn0 : 0 <= n) by (unfold n; lia).
  assert (Hlen0 : 0 <= len (sb s1)) by lia.
  assert (Hwn : Word.wrap n = n)
    by (apply Z.mod_small; unfold INT_MAX in Hn; rewrite modulus_eq; lia).
  assert (Hwn1 : Word.wrap (n + 1) = n + 1)
    by (apply Z.mod_small; unfold INT_MAX in Hn; rewrite modulus_eq; lia).
  unfold sb_vwritef, bind at 1.
  rewrite vsnprintf_measure by (fold n; lia). fold n.
  replace (n <? 0) with false by (symmetry; apply Z.ltb_ge; lia).
  unfold bind at 1, get_sb at 1.
  rewrite Hwn.
  rewrite (add_small (len (sb s)) n) by lia.
  rewrite (add_small (len (sb s) + n) 1) by lia.
  unfold bind at 1. rewrite Hgrown. cbn [negb].
  unfold bind at 1, get_sb at 1.
  unfold bind at 1, int_add, in_int.
  replace ((- INT_MAX - 1 <=? n + 1) && (n + 1 <=? INT_MAX)) with true
    by (symmetry; apply andb_true_iff; split; apply Z.leb_le;
        unfold INT_MAX in *; lia).
  cbn [ret]. rewrite Hwn1.
  rewrite (add_small (buf (sb s1)) (len (sb s1))) by lia.
  destruct (vsnprintf_render bytes (buf (sb s1) + len (sb s1)) s1)
    as (s2 & Hrun & Hsb & Hbl & Hin & Hend & Hout); [fold n; lia|].
  fold n in Hrun, Hin, Hend, Hout.
  unfold bind at 1. rewrite Hrun.
  replace (n <? 0) with false by (symmetry; apply Z.ltb_ge; lia).
  rewrite Hwn. rewrite (add_small (len (sb s1)) n) by lia.
  cbv [bind set_len get_sb put_sb ret]. rewrite Hsb.
  eexists. split; [reflexivity|]. cbn [sb heap blocks cap len buf].
  split; [ | split; [reflexivity | exact Hout]].
  constructor; cbn [sb heap blocks cap len buf]; try lia.
  - rewrite length_app, Nat2Z.inj_add. fold n. lia.
  - rewrite Hbl. exact Hblock.
  - intros i Hi. rewrite length_app, Nat2Z.inj_add in Hi. fold n in Hi.
    destruct (Z_lt_ge_dec i (len (sb s1))) as [Hlt | Hge].
    + rewrite Hout by lia. rewrite Hbytes by lia.
      symmetry. apply app_nth1. lia.
    + replace (buf (sb s1) + i)
        with (buf (sb s1) + len (sb s1) + (i - len (sb s1))) by lia.
      rewrite Hin by lia. rewrite app_nth2 by lia.
      f_equal. lia.
  - replace (buf (sb s1) + (len (sb s1) + n))
      with (buf (sb s1) + len (sb s1) + n) by lia.
    exact Hend.
Qed.

(** A write the buffer has room for, or makes room for, appends the text:
    [sb_vwritef] returns the length of the text and the builder then holds
    the old text followed by the new one.  With room to spare the buffer
    stays where it is and only the bytes of the new text and its terminator
    are written; otherwise the buffer is extended by twice the length of
    the text. *)
Theorem sb_write_appends s content bytes answer :
  holds s content ->
  let n := Z.of_nat (length bytes) in
  n < INT_MAX ->
  len (sb s) + n + 1 < cap (sb s) \/
  (cap (sb s) <= len (sb s) + n + 1 /\ cap (sb s) <= 2 * n /\
   2 * n <= INT_MAX /\ cap (sb s) + 2 * n < Word.modulus /\
   0 < answer /\ answer + (cap (sb s) + 2 * n) < Word.modulus) ->
  exists s',
    sb_vwritef (Some bytes) answer s = Some (n, s') /\
    holds s' (content ++ bytes) /\
    (len (sb s) + n + 1 < cap (sb s) ->
     cap (sb s') = cap (sb s) /\ buf (sb s') = buf (sb s) /\
     forall x, ~ (buf (sb s) + len (sb s) <= x
                  < buf (sb s) + len (sb s) + (n + 1)) ->
               heap s' x = heap s x) /\
    (cap (sb s) <= len (sb s) + n + 1 ->
     cap (sb s') = cap (sb s) + 2 * n /\ buf (sb s') = answer).
Proof.
  intros Hh n Hn Hcase.
  pose proof Hh as [Hlen Hroom Hcap Hbuf Hbend Hblock Hbytes Hterm].
  assert (Hn0 : 0 <= n) by (unfold n; lia).
  destruct Hcase as [Hfit | (Hfull & Hbig & Hint & Hsum & Ha & Hend)].
  - destruct (sb_vwritef_run s bytes answer s content)
      as (s' & Hrun & Hh' & Hsb & Hout); try assumption; try (fold n; lia).
    { fold n. replace (cap (sb s) <=? len (sb s) + n + 1) with false
        by (symmetry; apply Z.leb_gt; lia). reflexivity. }
    fold n in Hrun, Hsb, Hout.
    exists s'. split; [exact Hrun|]. split; [exact Hh'|]. split.
    + intros _. rewrite Hsb. cbn [cap buf]. split; [reflexivity|].
      split; [reflexivity | exact Hout].
    + intros Hc. lia.
  - destruct (sb_grow_keeps s content (2 * n) answer Hh Hbig Hsum Ha Hend)
      as (s1 & Hgrow & Hh1 & Hsb1 & _).
    destruct (sb_vwritef_run s bytes answer s1 content)
      as (s' & Hrun & Hh' & Hsb & Hout); try assumption; try (fold n; lia).
    { fold n. replace (cap (sb s) <=? len (sb s) + n + 1) with true
        by (symmetry; apply Z.leb_le; lia).
      unfold bind, int_mul, in_int.
      replace ((- INT_MAX - 1 <=? n * 2) && (n * 2 <=? INT_MAX)) with true
        by (symmetry; apply andb_true_iff; split; apply Z.leb_le;
            unfold INT_MAX in *; lia).
      cbn [ret].
      replace (Word.wrap (n * 2)) with (2 * n)
        by (symmetry; replace (n * 2) with (2 * n) by lia;
            apply Z.mod_small; unfold INT_MAX in *; rewrite modulus_eq; lia).
      exact Hgrow. }
    { fold n. rewrite Hsb1. cbn [cap len]. lia. }
    fold n in Hrun, Hsb, Hout.
    exists s'. split; [exact Hrun|]. split; [exact Hh'|]. split.
    + intros Hc. lia.
    + intros _. rewrite Hsb, Hsb1. cbn [cap buf]. split; reflexivity.
Qed.

(** A write is dropped, [sb_vwritef] returning 0 with the builder and the
    memory as they were, when the formatting fails, and when the buffer has
    no room for the text and cannot be extended: twice the length of the
    text is less than the capacity (which [sb_grow] refuses), or [realloc]
    has no memory (the buffer being [NULL] or a live block, and the new
    capacity other than 0). *)
Theorem sb_write_dropped s answer :
  sb_vwritef None answer s = Some (0, s) /\
  forall bytes,
    let n := Z.of_nat (length bytes) in
    2 * n <= INT_MAX ->
    0 <= len (sb s) -> len (sb s) + n + 1 < Word.modulus ->
    cap (sb s) <= len (sb s) + n + 1 ->
    2 * n < cap (sb s) \/
    (answer = NULL /\ buffer_ok s /\ cap (sb s) +w 2 * n <> 0) ->
    sb_vwritef (Some bytes) answer s = Some (0, s).
Proof.
  split; [reflexivity|].
  intros bytes n Hint Hl0 Hsum Hfull Hcase.
  assert (Hn0 : 0 <= n) by (unfold n; lia).
  assert (Hwn : Word.wrap n = n)
    by (apply Z.mod_small; unfold INT_MAX in Hint; rewrite modulus_eq; lia).
  unfold sb_vwritef, bind at 1.
  rewrite vsnprintf_measure by (fold n; unfold INT_MAX in *; lia). fold n.
  replace (n <? 0) with false by (symmetry; apply Z.ltb_ge; lia).
  unfold bind at 1, get_sb at 1.
  rewrite Hwn.
  rewrite (add_small (len (sb s)) n) by lia.
  rewrite (add_small (len (sb s) + n) 1) by lia.
  replace (cap (sb s) <=? len (sb s) + n + 1) with true
    by (symmetry; apply Z.leb_le; lia).
  unfold bind at 1. unfold bind at 1, int_mul, in_int.
  replace ((- INT_MAX - 1 <=? n * 2) && (n * 2 <=? INT_MAX)) with true
    by (symmetry; apply andb_true_iff; split; apply Z.leb_le;
        unfold INT_MAX in *; lia).
  cbn [ret].
  replace (Word.wrap (n * 2)) with (2 * n)
    by (symmetry; replace (n * 2) with (2 * n) by lia;
        apply Z.mod_small; unfold INT_MAX in *; rewrite modulus_eq; lia).
  rewrite (sb_grow_refused s (2 * n) answer Hcase).
  reflexivity.
Qed.

(** A builder of capacity 32 whose buffer, a live block at 4096, is all
    zero: what [sb_init] leaves. *)
Lemma fresh_builder_holds :
  holds (mkSt (mkSb 32 0 4096) (fun _ => 0)
              (fun x => if x =? 4096 then Some 32 else None)) [].
Proof.
  constructor; cbn [sb heap blocks cap len buf length]; try lia;
    try reflexivity; rewrite ?modulus_eq; lia.
Qed.

Lemma sb_write_appends_witness :
  exists s',
    sb_vwritef (Some [104; 105]) NULL
      (mkSt (mkSb 32 0 4096) (fun _ => 0)
            (fun x => if x =? 4096 then Some 32 else None)) = Some (2, s') /\
    holds s' [104; 105] /\ cap (sb s') = 32 /\ buf (sb s') = 4096.
Proof.
  destruct (sb_write_appends _ [] [104; 105] NULL fresh_builder_holds)
    as (s' & Hrun & Hh & Hfit & _).
  - cbn. unfold INT_MAX. lia.
  - left. cbn. lia.
  - exists s'. split; [exact Hrun|]. split; [exact Hh|].
    destruct Hfit as (Hc & Hb & _); [cbn; lia|].
    split; [exact Hc | exact Hb].
Defined.

Lemma sb_write_dropped_witness :
  sb_vwritef (Some (repeat 65 30)) NULL
    (mkSt (mkSb 32 2 4096)
          (poke (poke (fun _ => 0) 4096 104) 4097 105)
          (fun x => if x =? 4096 then Some 32 else None))
  = Some (0, mkSt (mkSb 32 2 4096)
                  (poke (poke (fun _ => 0) 4096 104) 4097 105)
                  (fun x => if x =? 4096 then Some 32 else None)).
Proof.
  destruct (sb_write_dropped
              (mkSt (mkSb 32 2 4096)
                    (poke (poke (fun _ => 0) 4096 104) 4097 105)
                    (fun x => if x =? 4096 then Some 32 else None)) NULL)
    as [_ H].
  apply (H (repeat 65 30)).
  - cbn. unfold INT_MAX. lia.
  - cbn. lia.
  - cbn [sb len]. rewrite repeat_length, modulus_eq. lia.
  - cbn. lia.
  - right. split; [reflexivity|]. split.
    + right. exists 32. reflexivity.
    + vm_compute. discriminate.
Defined.

(** [sb_clear] zeroes the whole buffer and nothing else; the builder then
    holds the empty text in the same buffer, its capacity kept. *)
Theorem sb_clear_empties s content :
  holds s content ->
  exists s',
    sb_clear s = Some (tt, s') /\
    holds s' [] /\
    sb s' = mkSb (cap (sb s)) 0 (buf (sb s)) /\
    (forall i, 0 <= i < cap (sb s) -> heap s' (buf (sb s) + i) = 0) /\
    (forall x, ~ (buf (sb s) <= x < buf (sb s) + cap (sb s)) ->
               heap s' x = heap s x).
Proof.
  intros [Hlen Hroom Hcap Hbuf Hbend Hblock Hbytes Hterm].
  cbv [sb_clear bind get_sb memset set_len put_sb].
  replace (buf (sb s) =? NULL) with false
    by (symmetry; apply Z.eqb_neq; unfold NULL; lia).
  cbn [andb].
  eexists. split; [reflexivity|]. cbn [sb heap blocks cap len buf].
  split; [ | split; [reflexivity | split]].
  - constructor; cbn [sb heap blocks cap len buf length]; try lia.
    + exact Hblock.
    + apply fill_inside. lia.
  - intros i Hi. apply fill_inside. lia.
  - intros x Hx. apply fill_outside. exact Hx.
Qed.

Lemma sb_clear_empties_witness :
  heap (mkSt (mkSb 32 2 4096)
             (poke (poke (fun _ => 0) 4096 104) 4097 105)
             (fun x => if x =? 4096 then Some 32 else None)) 4096 = 104 /\
  exists s',
    sb_clear (mkSt (mkSb 32 2 4096)
                   (poke (poke (fun _ => 0) 4096 104) 4097 105)
                   (fun x => if x =? 4096 then Some 32 else None))
      = Some (tt, s') /\
    holds s' [] /\ sb s' = mkSb 32 0 4096 /\
    heap s' 4096 = 0 /\ heap s' 4097 = 0.
Proof.
  split; [reflexivity|].
  destruct (sb_clear_empties _ [104; 105] written_builder_holds)
    as (s' & Hrun & Hh & Hsb & Hzero & _).
  exists s'. split; [exact Hrun|]. split; [exact Hh|]. split; [exact Hsb|].
  split.
  - exact (Hzero 0 ltac:(cbn; lia)).
  - exact (Hzero 1 ltac:(cbn; lia)).
Defined.

(** [sb_deinit] frees the buffer and zeroes the capacity and the length,
    but keeps the pointer to the freed block.  Going on without
    reinitialising has no defined meaning: a second [sb_deinit] frees the
    block again, and every write hands the freed block to [realloc]. *)
Theorem sb_deinit_frees s content :
  holds s content ->
  exists s1,
    sb_deinit s = Some (tt, s1) /\
    sb s1 = mkSb 0 0 (buf (sb s)) /\
    blocks s1 (buf (sb s)) = None /\
    (forall x, heap s1 x = heap s x) /\
    sb_deinit s1 = None /\
    (forall bytes answer,
        2 * Z.of_nat (length bytes) <= INT_MAX ->
        sb_vwritef (Some bytes) answer s1 = None).
Proof.
  intros [Hlen Hroom Hcap Hbuf Hbend Hblock Hbytes Hterm].
  assert (Hnn : (buf (sb s) =? NULL) = false)
    by (apply Z.eqb_neq; unfold NULL; lia).
  unfold sb_deinit at 1, bind at 1, get_sb at 1.
  unfold bind at 1, free. rewrite Hnn, Hblock.
  eexists. split; [reflexivity|]. cbn [sb heap blocks].
  split; [reflexivity|].
  split; [unfold set_block; rewrite Z.eqb_refl; reflexivity|].
  split; [reflexivity|]. split.
  - unfold sb_deinit, bind at 1, get_sb at 1. cbn [sb buf].
    unfold bind at 1, free. cbn [blocks]. rewrite Hnn.
    unfold set_block. rewrite Z.eqb_refl. reflexivity.
  - intros bytes answer Hint.
    set (n := Z.of_nat (length bytes)) in *.
    assert (Hn0 : 0 <= n) by (unfold n; lia).
    assert (Hwn : Word.wrap n = n)
      by (apply Z.mod_small; unfold INT_MAX in Hint; rewrite modulus_eq; lia).
    unfold sb_vwritef, bind at 1.
    rewrite vsnprintf_measure by (fold n; unfold INT_MAX in *; lia). fold n.
    replace (n <? 0) with false by (symmetry; apply Z.ltb_ge; lia).
    unfold bind at 1, get_sb at 1. cbn [sb cap len].
    rewrite Hwn.
    rewrite (add_small 0 n) by (rewrite ?modulus_eq; unfold INT_MAX in *; lia).
    rewrite (add_small (0 + n) 1) by (rewrite ?modulus_eq; unfold INT_MAX in *; lia).
    replace (0 <=? 0 + n + 1) with true by (symmetry; apply Z.leb_le; lia).
    unfold bind at 1. unfold bind at 1, int_mul, in_int.
    replace ((- INT_MAX - 1 <=? n * 2) && (n * 2 <=? INT_MAX)) with true
      by (symmetry; apply andb_true_iff; split; apply Z.leb_le;
          unfold INT_MAX in *; lia).
    cbn [ret].
    unfold sb_grow, bind at 1, get_sb at 1. cbn [sb cap len buf].
    replace (Word.wrap (n * 2) <? 0) with false
      by (symmetry; apply Z.ltb_ge; apply Z.mod_pos_bound; rewrite modulus_eq; lia).
    unfold bind at 1, realloc.
    rewrite Hnn. cbn [blocks].
    unfold set_block. rewrite Z.eqb_refl. reflexivity.
Qed.

Lemma sb_deinit_frees_witness :
  exists s1,
    sb_deinit (mkSt (mkSb 32 0 4096) (fun _ => 0)
                    (fun x => if x =? 4096 then Some 32 else None))
      = Some (tt, s1) /\
    sb s1 = mkSb 0 0 4096 /\ sb_deinit s1 = None.
Proof.
  destruct (sb_deinit_frees _ [] fresh_builder_holds)
    as (s1 & Hrun & Hsb & _ & _ & Hagain & _).
  exists s1. split; [exact Hrun|]. split; [exact Hsb | exact Hagain].
Defined.

(** [sb_to_string] returns a fresh block holding the text and a terminator
    and leaves the builder as it is; when there is no memory it returns
    [NULL] and nothing changes.  (The text holds no zero byte, and the
    fresh block lies outside the buffer.) *)
Theorem sb_to_string_copies fuel s content answer :
  holds s content -> Forall (fun b => b <> 0) content ->
  (Z.to_nat (len (sb s)) < fuel)%nat ->
  (answer = NULL -> sb_to_string fuel answer s = Some (NULL, s)) /\
  (0 < answer ->
   answer + (len (sb s) + 1) <= buf (sb s) \/
   buf (sb s) + cap (sb s) <= answer ->
   exists s',
     sb_to_string fuel answer s = Some (answer, s') /\
     (forall i, 0 <= i < len (sb s) ->
                heap s' (answer + i) = nth (Z.to_nat i) content 0) /\
     c_string (heap s') answer (len (sb s)) /\
     holds s' content /\ sb s' = sb s /\
     blocks s' answer = Some (len (sb s) + 1)).
Proof.
  intros Hh Hnz Hfuel.
  pose proof Hh as [Hlen Hroom Hcap Hbuf Hbend Hblock Hbytes Hterm].
  assert (Hl0 : 0 <= len (sb s)) by lia.
  assert (Hbyte : forall i, 0 <= i < len (sb s) -> heap s (buf (sb s) + i) <> 0).
  { intros i Hi. rewrite Hbytes by lia.
    rewrite Forall_forall in Hnz. apply Hnz. apply nth_In. lia. }
  assert (Hscan : strnlen_scan fuel (heap s) (buf (sb s)) (len (sb s)) 0
                  = Some (len (sb s))).
  { apply strnlen_scan_found; try lia.
    intros i Hi. apply Hbyte. lia. }
  cbv [sb_to_string strndup bind get_sb malloc ret]. rewrite Hscan.
  rewrite (add_small (len (sb s)) 1) by lia.
  split.
  - intros ->. reflexivity.
  - intros Ha Hout.
    assert (Hneq : (answer =? NULL) = false)
      by (apply Z.eqb_neq; unfold NULL; lia).
    rewrite Hneq. cbv beta iota. rewrite Hneq.
    eexists. split; [reflexivity|]. cbn [sb heap blocks].
    assert (Hcopy : forall i, 0 <= i < len (sb s) ->
              poke (move (heap s) answer (buf (sb s)) (len (sb s)))
                   (answer + len (sb s)) 0 (answer + i)
              = heap s (buf (sb s) + i)).
    { intros i Hi. rewrite poke_other by lia. apply move_inside. exact Hi. }
    assert (Hframe : forall x, ~ (answer <= x < answer + (len (sb s) + 1)) ->
              poke (move (heap s) answer (buf (sb s)) (len (sb s)))
                   (answer + len (sb s)) 0 x = heap s x).
    { intros x Hx. rewrite poke_other by lia. apply move_outside. lia. }
    split; [intros i Hi; rewrite Hcopy by exact Hi; apply Hbytes; lia|].
    split; [split|].
    + intros i Hi. rewrite Hcopy by exact Hi. apply Hbyte. exact Hi.
    + apply poke_same.
    + split; [ | split; [reflexivity|]].
      * constructor; cbn [sb heap blocks]; try assumption.
        -- unfold set_block.
           replace (buf (sb s) =? answer) with false
             by (symmetry; apply Z.eqb_neq; lia).
           exact Hblock.
        -- intros i Hi. rewrite Hframe by lia. apply Hbytes. exact Hi.
        -- rewrite Hframe by lia. exact Hterm.
      * unfold set_block. rewrite Z.eqb_refl. reflexivity.
Qed.

Lemma sb_to_string_copies_witness :
  exists s',
    sb_to_string 10 8192
      (mkSt (mkSb 32 2 4096)
            (poke (poke (fun _ => 0) 4096 104) 4097 105)
            (fun x => if x =? 4096 then Some 32 else None)) = Some (8192, s') /\
    heap s' (8192 + 0) = 104 /\ heap s' (8192 + 1) = 105 /\
    c_string (heap s') 8192 2.
Proof.
  destruct (sb_to_string_copies 10 _ [104; 105] 8192 written_builder_holds)
    as [_ H].
  - repeat constructor; discriminate.
  - cbn. lia.
  - destruct H as (s' & Hrun & Hcopy & Hstr & _).
    + lia.
    + right. cbn. lia.
    + exists s'. split; [exact Hrun|].
      split; [exact (Hcopy 0 ltac:(cbn; lia))|].
      split; [exact (Hcopy 1 ltac:(cbn; lia)) | exact Hstr].
Defined.

Lemma bytes_at_length h p n : length (bytes_at h p n) = n.
Proof. unfold bytes_at. rewrite length_map, length_seq. reflexivity. Qed.

Lemma bytes_at_succ h p n :
  bytes_at h p (S n) = h p :: bytes_at h (p + 1) n.
Proof.
  unfold bytes_at. cbn [seq map]. rewrite Z.add_0_r. f_equal.
  rewrite <- seq_shift, map_map. apply map_ext.
  intros a. f_equal. lia.
Qed.

Lemma read_string_found h : forall n fuel p,
  (forall i, 0 <= i < Z.of_nat n -> h (p + i) <> 0) ->
  h (p + Z.of_nat n) = 0 -> (n < fuel)%nat ->
  read_string fuel h p = Some (bytes_at h p n).
Proof.
  induction n as [ | n IH]; intros fuel p Hnz Hz Hfuel.
  - destruct fuel as [ | f]; [lia|]. cbn [read_string].
    cbn in Hz. rewrite Z.add_0_r in Hz. rewrite Hz. reflexivity.
  - destruct fuel as [ | f]; [lia|]. cbn [read_string].
    replace (h p =? 0) with false
      by (symmetry; apply Z.eqb_neq; rewrite <- (Z.add_0_r p); apply Hnz; lia).
    rewrite (IH f (p + 1)).
    + rewrite bytes_at_succ. reflexivity.
    + intros i Hi. replace (p + 1 + i) with (p + (i + 1)) by lia.
      apply Hnz. lia.
    + replace (p + 1 + Z.of_nat n) with (p + Z.of_nat (S n)) by lia. exact Hz.
    + lia.
Qed.

(** [sb_init_from] allocates twice the length of the string and writes the
    string at the offset the builder's length field holds on entry, which
    the function never sets: the builder ends up holding that many zero
    bytes followed by the string.  (Stated for a string of at least two
    bytes that lies outside the new block, a [malloc] that succeeds, and an
    incoming length small enough for the string to fit without growing.) *)
Theorem sb_init_from_spec fuel s src n answer answer' :
  c_string (heap s) src (Z.of_nat n) -> (n < fuel)%nat ->
  Z.of_nat n < INT_MAX ->
  0 < answer -> answer + 2 * Z.of_nat n < Word.modulus ->
  src + Z.of_nat n + 1 <= answer \/ answer + 2 * Z.of_nat n <= src ->
  0 <= len (sb s) -> len (sb s) + Z.of_nat n + 1 < 2 * Z.of_nat n ->
  exists s',
    sb_init_from fuel src answer answer' s = Some (tt, s') /\
    sb s' = mkSb (2 * Z.of_nat n) (len (sb s) + Z.of_nat n) answer /\
    holds s' (repeat 0 (Z.to_nat (len (sb s))) ++ bytes_at (heap s) src n).
Proof.
  intros [Hnz Hz] Hfuel Hint Ha Hend Hout Hl0 Hroom.
  set (N := Z.of_nat n) in *. set (l0 := len (sb s)) in *.
  assert (HN : 0 <= N) by (unfold N; lia).
  unfold sb_init_from.
  rewrite (strlen_scan_found (heap s) src N fuel 0)
    by (try assumption; try lia; replace (N - 0) with N by lia; unfold N; lia).
  replace (Word.wrap (N * 2)) with (2 * N)
    by (symmetry; replace (N * 2) with (2 * N) by lia;
        apply Z.mod_small; lia).
  assert (Hneq : (answer =? NULL) = false)
    by (apply Z.eqb_neq; unfold NULL; lia).
  cbv [bind set_cap set_buf get_sb put_sb malloc memset ret].
  cbn [sb cap len buf heap blocks].
  rewrite Hneq.
  cbn [sb cap len buf heap blocks]. rewrite Hneq. cbn [andb].
  set (s2 := mkSt (mkSb (2 * N) l0 answer)
                  (fill (heap s) answer 0 (2 * N))
                  (set_block (blocks s) answer (Some (2 * N)))).
  assert (Hsrc : forall i, 0 <= i <= N -> heap s2 (src + i) = heap s (src + i)).
  { intros i Hi. cbn [s2 heap]. apply fill_outside. lia. }
  assert (Hread : read_string fuel (heap s2) src = Some (bytes_at (heap s) src n)).
  { rewrite (read_string_found (heap s2) n fuel src).
    - f_equal. unfold bytes_at. apply map_ext_in.
      intros a Hin. apply in_seq in Hin. apply Hsrc. unfold N. lia.
    - intros i Hi. rewrite Hsrc by (unfold N; lia). apply Hnz. exact Hi.
    - rewrite Hsrc by (unfold N; lia). exact Hz.
    - exact Hfuel. }
  assert (Hh2 : holds s2 (repeat 0 (Z.to_nat l0))).
  { constructor; cbn [s2 sb heap blocks cap len buf]; try lia.
    - rewrite repeat_length. lia.
    - unfold set_block. rewrite Z.eqb_refl. reflexivity.
    - intros i Hi. rewrite repeat_length in Hi.
      rewrite fill_inside by lia. symmetry. apply nth_repeat.
    - apply fill_inside. lia. }
  destruct (sb_vwritef_run s2 (bytes_at (heap s) src n) answer' s2
              (repeat 0 (Z.to_nat l0)))
    as (s' & Hrun & Hh' & Hsb & _);
    rewrite ?bytes_at_length; cbn [s2 sb cap len]; fold N; try lia;
    try exact Hh2.
  { replace (2 * N <=? l0 + N + 1) with false
      by (symmetry; apply Z.leb_gt; lia). reflexivity. }
  rewrite bytes_at_length in Hrun. fold N in Hrun.
  unfold sb_write. fold l0. fold s2. rewrite Hread. unfold sb_writef. rewrite Hrun.
  exists s'. split; [reflexivity|]. split; [ | exact Hh'].
  rewrite Hsb, bytes_at_length. reflexivity.
Qed.

Lemma sb_init_from_spec_witness :
  exists s',
    sb_init_from 10 100 4096 0
      (mkSt (mkSb 0 1 0)
            (poke (poke (poke (fun _ => 0) 100 104) 101 105) 102 106)
            (fun _ => None)) = Some (tt, s') /\
    sb s' = mkSb 6 4 4096 /\
    holds s' ([0] ++ [104; 105; 106]).
Proof.
  destruct (sb_init_from_spec 10
              (mkSt (mkSb 0 1 0)
                    (poke (poke (poke (fun _ => 0) 100 104) 101 105) 102 106)
                    (fun _ => None)) 100 3 4096 0)
    as (s' & Hrun & Hsb & Hh).
  - split.
    + intros i Hi.
      assert (Hc : i = 0 \/ i = 1 \/ i = 2) by lia.
      destruct Hc as [-> | [-> | ->]]; cbn; lia.
    + reflexivity.
  - lia.
  - reflexivity.
  - lia.
  - rewrite modulus_eq. lia.
  - left. lia.
  - cbn [sb len]. lia.
  - cbn [sb len]. lia.
  - exists s'. split; [exact Hrun|]. split; [exact Hsb | exact Hh].
Defined.

End SBProps.
